(** * raven: a concurrent fetch-and-aggregate pipeline

    A shallow embedding of [main.go] and the properties of its locator
    producer ([iter]), its deduplicating dispatch loop, its fetchers with
    their pool of clients, and its statistics ([flockMetrics]).

    Conventions of the embedding:
    - a Go [string] is the list of its bytes ([gostring]);
    - a Go [int] is a [Z] kept in the 64-bit two's complement range by
      [int]; every addition of the program goes through [int_add];
    - a [float64] is an IEEE 754 binary64 number ([spec_float] with
      precision 53 and maximal exponent 1024);
    - [fmt.Sprintf], [fmt.Printf] and [fmt.Errorf] are symbolic: a piece of
      formatted text is the format as written in the source together with
      its operands;
    - goroutines and channels are a transition system ([step]). *)

From Stdlib Require Import ZArith String Ascii List Lia Bool Permutation.
From Stdlib Require Import Floats.SpecFloat.
From Equations Require Import Equations.
From stdpp Require Import gmap strings list.

Set Warnings "-register-all".

Local Open Scope Z_scope.

(** ** Go's [int] *)

Definition intSize : Z := 64.
Definition maxInt : Z := 2 ^ (intSize - 1) - 1.
Definition minInt : Z := - 2 ^ (intSize - 1).

(** Reduction of an integer into the range of [int] (two's complement). *)
Definition int (z : Z) : Z := (z + 2 ^ (intSize - 1)) mod 2 ^ intSize - 2 ^ (intSize - 1).

Definition int_add (a b : Z) : Z := int (a + b).

Definition in_int (z : Z) : Prop := minInt <= z <= maxInt.

(** ** Go's [float64] *)

Abbreviation float64 := spec_float.

Definition prec : Z := 53.
Definition emax : Z := 1024.

(** The conversion [float64(n)] of an integer: round to nearest, ties to even. *)
Definition float64_of_int (n : Z) : float64 := binary_normalize prec emax n 0 false.

Definition float64_add : float64 -> float64 -> float64 := SFadd prec emax.
Definition float64_mul : float64 -> float64 -> float64 := SFmul prec emax.
Definition float64_div : float64 -> float64 -> float64 := SFdiv prec emax.
Definition NaN : float64 := S754_nan.

(** ** Go's [string]: a sequence of bytes *)

Abbreviation gostring := (list ascii).

Definition byte (n : nat) : ascii := ascii_of_nat n.

Definition str (s : string) : gostring := list_ascii_of_string s.

Definition newline : ascii := byte 10.
Definition quote : ascii := byte 34.

(** [cut_prefix p s] is what follows [p] in [s], when [s] starts with [p]. *)
Fixpoint cut_prefix (p s : gostring) : option gostring :=
  match p, s with
  | [], _ => Some s
  | _ :: _, [] => None
  | a :: p', c :: s' => if Ascii.eqb a c then cut_prefix p' s' else None
  end.

(** [strings.HasPrefix] and [strings.HasSuffix]. *)
Definition HasPrefix (s prefix : gostring) : bool :=
  match cut_prefix prefix s with Some _ => true | None => false end.

Definition HasSuffix (s suffix : gostring) : bool :=
  HasPrefix (rev s) (rev suffix).

(** The UTF-8 encodings of the code points for which [unicode.IsSpace]
    holds: tab, line feed, vertical tab, form feed, carriage return, space,
    U+0085, U+00A0, U+1680, U+2000 to U+200A, U+2028, U+2029, U+202F,
    U+205F and U+3000. *)
Definition white_space : list gostring :=
  map (fun n => [byte n]) [9; 10; 11; 12; 13; 32]%nat
  ++ [[byte 194; byte 133]; [byte 194; byte 160]]
  ++ [[byte 225; byte 154; byte 128]]
  ++ map (fun n => [byte 226; byte 128; byte n]) (seq 128 11)
  ++ [[byte 226; byte 128; byte 168]; [byte 226; byte 128; byte 169];
      [byte 226; byte 128; byte 175]; [byte 226; byte 129; byte 159];
      [byte 227; byte 128; byte 128]].

(** What follows the first rune of [s], when that rune is one of [runes]. *)
Fixpoint cut_rune (runes : list gostring) (s : gostring) : option gostring :=
  match runes with
  | [] => None
  | r :: runes' =>
      match cut_prefix r s with
      | Some rest => Some rest
      | None => cut_rune runes' s
      end
  end.

(** Drop leading runes of [s] as long as they are in [runes]; every rune
    has at least one byte, so [length s] rounds are enough. *)
Fixpoint trim_runes (runes : list gostring) (rounds : nat) (s : gostring) : gostring :=
  match rounds with
  | O => s
  | S n =>
      match cut_rune runes s with
      | Some rest => trim_runes runes n rest
      | None => s
      end
  end.

(** [strings.TrimSpace], that is [TrimFunc(s, unicode.IsSpace)]: leading
    white space is removed rune by rune from the front, trailing white
    space rune by rune from the back. A byte sequence that is not the
    encoding of a white space code point (be it invalid UTF-8) stops the
    trimming. *)
Definition TrimLeftSpace (s : gostring) : gostring :=
  trim_runes white_space (length s) s.

Definition TrimRightSpace (s : gostring) : gostring :=
  rev (trim_runes (map (@rev ascii) white_space) (length s) (rev s)).

Definition TrimSpace (s : gostring) : gostring :=
  TrimRightSpace (TrimLeftSpace s).

(** [strings.Trim(s, cutset)] for a cutset of ASCII bytes: the bytes of the
    cutset are removed from both ends. *)
Definition inCutset (cutset : gostring) (c : ascii) : bool :=
  existsb (Ascii.eqb c) cutset.

Fixpoint trimLeftASCII (s cutset : gostring) : gostring :=
  match s with
  | [] => []
  | c :: s' => if inCutset cutset c then trimLeftASCII s' cutset else s
  end.

Definition trimRightASCII (s cutset : gostring) : gostring :=
  rev (trimLeftASCII (rev s) cutset).

Definition Trim (s cutset : gostring) : gostring :=
  trimLeftASCII (trimRightASCII s cutset) cutset.

(** ** Values of the libraries the program uses *)

(** A [*url.URL]. The program only ever reads a URL through its [String]
    method ([%v] prints it the same way), so a URL is kept as that text. *)
Record URL := { URL_String : gostring }.

(** The result of [stats.Quartile]. *)
Record Quartiles := { Q1 : float64; Q2 : float64; Q3 : float64 }.

(** Operands of the verbs of a format, error values, and formatted text.
    A format is kept as it is written in the source, escapes included. *)
Inductive operand :=
| opInt (n : Z)
| opFloat (x : float64)
| opString (s : gostring)
| opURL (u : URL)
| opQuartiles (q : Quartiles)
| opError (e : option error)
| opText (t : text)
with error :=
| errors_New (message : string)
| Errorf (format : string) (args : list operand)
| NumError (Func : string) (Num : gostring) (Err : error)
| statsError (err : string)
with text :=
| Sprintf (format : string) (args : list operand)
| Join (elems : list text) (sep : string).

(** ** [strconv.Atoi] *)

Definition ErrSyntax : error := errors_New "invalid syntax".
Definition ErrRange : error := errors_New "value out of range".

Definition syntaxError (fn : string) (s : gostring) : error := NumError fn s ErrSyntax.
Definition rangeError (fn : string) (s : gostring) : error := NumError fn s ErrRange.

Definition maxUint64 : Z := 2 ^ 64 - 1.

(** The value of a decimal digit. *)
Definition digit (c : ascii) : option Z :=
  let n := Z.of_N (N_of_ascii c) in
  if (48 <=? n) && (n <=? 57) then Some (n - 48) else None.

(** The two ways in which [strconv.ParseUint] fails: [ErrSyntax] and
    [ErrRange]. *)
Inductive parse_failure := syntax_failure | range_failure.

(** The loop of [strconv.ParseUint(s, 10, 64)] over the bytes of [s], with
    [n] the value read so far: the first byte that is not a digit is a
    syntax error, a value beyond [maxUint64] a range error. *)
Fixpoint ParseUint_loop (s : gostring) (n : Z) : Z + parse_failure :=
  match s with
  | [] => inl n
  | c :: s' =>
      match digit c with
      | None => inr syntax_failure
      | Some d =>
          if n >=? maxUint64 / 10 + 1 then inr range_failure
          else
            let n1 := n * 10 + d in
            if n1 >? maxUint64 then inr range_failure else ParseUint_loop s' n1
      end
  end.

(** The value of [strconv.Atoi(s0)] once the sign is read: [neg] tells
    whether it is a minus, [digits] is what follows the sign. *)
Definition Atoi_digits (s0 : gostring) (neg : bool) (digits : gostring) : Z * option error :=
  match digits with
  | [] => (0, Some (syntaxError "Atoi" s0))
  | _ :: _ =>
      match ParseUint_loop digits 0 with
      | inr syntax_failure => (0, Some (syntaxError "Atoi" s0))
      | inr range_failure =>
          ((if neg then minInt else maxInt), Some (rangeError "Atoi" s0))
      | inl un =>
          if negb neg && (un >=? 2 ^ (intSize - 1)) then (maxInt, Some (rangeError "Atoi" s0))
          else if neg && (un >? 2 ^ (intSize - 1)) then (minInt, Some (rangeError "Atoi" s0))
          else ((if neg then - un else un), None)
      end
  end.

(** [strconv.Atoi]: an optional sign, then at least one decimal digit and
    nothing else, with a value in the range of [int]. *)
Definition Atoi (s : gostring) : Z * option error :=
  match s with
  | [] => (0, Some (syntaxError "Atoi" s))
  | c :: s' =>
      let neg := Ascii.eqb c "-" in
      Atoi_digits s neg (if neg || Ascii.eqb c "+" then s' else s)
  end.

(** Integers in decimal notation, to say what [strconv.Atoi] accepts: the
    integer that a string of decimal digits denotes, after the digits of
    [acc], and the integer that an optional sign followed by at least one
    decimal digit denotes. *)
Fixpoint decimal (digits : gostring) (acc : Z) : option Z :=
  match digits with
  | [] => Some acc
  | c :: digits' =>
      match digit c with
      | Some d => decimal digits' (acc * 10 + d)
      | None => None
      end
  end.

Definition unsigned_decimal (digits : gostring) : option Z :=
  match digits with
  | [] => None
  | _ :: _ => decimal digits 0
  end.

Definition signed_decimal (s : gostring) : option Z :=
  match s with
  | [] => None
  | c :: s' =>
      if Ascii.eqb c "-" then option_map Z.opp (unsigned_decimal s')
      else if Ascii.eqb c "+" then unsigned_decimal s'
      else unsigned_decimal s
  end.

(** ** Fetch results *)

Record ravenResult := {
  url : gostring;
  completed : bool;
  status : Z;
  exception : option error;
  size : Z;
  ambiguous : bool
}.

(** What [client.Get] hands back: a response, of which the program reads
    the status code and the [Content-Length] header (empty when the header
    is absent), or an error. *)
Record Response := {
  StatusCode : Z;
  Header_Get_ContentLength : gostring
}.

(** [resultProcessor.fetch], from the answer of [client.Get] to the one
    result it sends on [p.results]. The client it borrows from [p.queue]
    and gives back is in the transition system below. *)
Definition fetch (resource : URL) (got : Response + error) : ravenResult :=
  match got with
  | inr e =>
      {| url := URL_String resource; completed := true; status := 0;
         exception := Some e; size := 0; ambiguous := false |}
  | inl response =>
      if StatusCode response >? 399 then
        {| url := URL_String resource; completed := true; status := 0;
           exception := Some (Errorf "invalid status code: %d" [opInt (StatusCode response)]);
           size := 0; ambiguous := false |}
      else
        let value := Header_Get_ContentLength response in
        if (Z.of_nat (length value) <=? 0) then
          {| url := URL_String resource; completed := true; status := 0;
             exception := Some (Errorf "no-content-length (status code %d): %s"
                                  [opInt (StatusCode response); opURL resource]);
             size := 0; ambiguous := true |}
        else
          match Atoi value with
          | (_, Some e) =>
              {| url := URL_String resource; completed := true; status := 0;
                 exception := Some e; size := 0; ambiguous := true |}
          | (length, None) =>
              {| url := URL_String resource; completed := true;
                 status := StatusCode response; exception := None;
                 size := length; ambiguous := false |}
          end
  end.

(** ** Run metrics *)

(** The field [ambiguous] of the source is [ambiguous_errors] here: the
    name is taken by the field of [ravenResult]. *)
Record flockMetrics := {
  failed : Z;
  average : float64;
  sum : Z;
  max : Z;
  min : Z;
  count : Z;
  sizes : list float64;
  ambiguous_errors : list (option error)
}.

(** [flockMetrics.add]. *)
Definition add (m : flockMetrics) (raven : ravenResult) : flockMetrics :=
  let count' := int_add (count m) 1 in
  let ambiguous' :=
    if ambiguous raven then ambiguous_errors m ++ [exception raven]
    else ambiguous_errors m in
  match exception raven with
  | Some _ =>
      {| failed := int_add (failed m) 1; average := average m; sum := sum m;
         max := max m; min := min m; count := count';
         sizes := sizes m; ambiguous_errors := ambiguous' |}
  | None =>
      let max' := if max m <? size raven then size raven else max m in
      let min' := if min m >? size raven then size raven else min m in
      {| failed := failed m; average := average m;
         sum := int_add (sum m) (size raven);
         max := max'; min := min'; count := count';
         sizes := sizes m ++ [float64_of_int (size raven)];
         ambiguous_errors := ambiguous' |}
  end.

(** The [rollup] of [main]: every numeric field is zero, no size and no
    ambiguous error yet. *)
Definition rollup0 : flockMetrics :=
  {| failed := 0; average := float64_of_int 0; sum := 0; max := 0; min := 0;
     count := 0; sizes := []; ambiguous_errors := [] |}.

(** The last assignment of [main]:
    [rollup.average = float64(rollup.sum) / float64(rollup.count)]. *)
Definition set_average (m : flockMetrics) : flockMetrics :=
  {| failed := failed m;
     average := float64_div (float64_of_int (sum m)) (float64_of_int (count m));
     sum := sum m; max := max m; min := min m; count := count m;
     sizes := sizes m; ambiguous_errors := ambiguous_errors m |}.

(** The rollup once the aggregator has folded [results], in the order in
    which they arrived. *)
Definition drain (results : list ravenResult) : flockMetrics :=
  fold_left add results rollup0.

(** The sizes of the results without an error, in order. *)
Definition successful_sizes (results : list ravenResult) : list Z :=
  map size (filter (fun raven => exception raven = None) results).

Definition total (sizes : list Z) : Z := fold_right Z.add 0 sizes.

(** ** The locator producer *)

Definition io_EOF : error := errors_New "EOF".

(** [bufio.Reader.ReadString('\n')] on a reader whose unread bytes are
    [buffered]: the bytes up to and including the first line feed, or, when
    there is none, all the bytes that are left together with [io.EOF]. The
    third component is what remains unread. *)
Fixpoint ReadString (buffered : gostring) : gostring * option error * gostring :=
  match buffered with
  | [] => ([], Some io_EOF, [])
  | c :: rest =>
      if Ascii.eqb c newline then ([c], None, rest)
      else
        let '(s, e, rest') := ReadString rest in
        (c :: s, e, rest')
  end.

(** The envelope test of [iter], on a line as [ReadString] returned it. *)
Definition envelope (s : gostring) : bool :=
  let trimmed := TrimSpace s in
  HasPrefix trimmed (str "{") && HasSuffix trimmed (str "}").

(** The cutset of [iter]: brace, double quote, space, line feed, brace. *)
Definition cutset : gostring := ["{"%char; quote; " "%char; newline; "}"%char].

(** What the goroutine of [iter] does, in order: it prints, or it sends on
    its channel; at the end of the list it closes the channel. *)
Inductive iter_event :=
| iterPrintf (t : text)
| iterSend (cleansed : gostring).

Definition inspect {A : Type} (a : A) : {b : A | a = b} := exist _ a eq_refl.

Section iter_loop.

Variable max : Z.

(** The loop of [iter] with [start] accepted lines so far. *)
Equations? iter_loop (buffered : gostring) (start : Z) : list iter_event
  by wf (length buffered) lt :=
  iter_loop buffered start with (max <? 0) || (start <? max) => {
    | false => [];
    | true with inspect (ReadString buffered) => {
        | exist _ (s, Some e, rest) _ => [];
        | exist _ (s, None, rest) Hread =>
            if envelope s
            then iterSend (Trim s cutset) :: iter_loop rest (int_add start 1)
            else iterPrintf (Sprintf "skipping line #%d\n" [opInt start])
                   :: iter_loop rest start } }.
Proof.
  all: clear iter_loop; revert s rest Hread;
    induction buffered as [|c buffered IH]; simpl; intros s rest H; [discriminate|];
    destruct (Ascii.eqb c newline);
    [ inversion H; subst; lia
    | destruct (ReadString buffered) as [[s' e'] rest'] eqn:E;
      inversion H; subst; specialize (IH _ _ eq_refl); lia ].
Qed.

End iter_loop.

(** [iter(source, max)]: the actions of the producer goroutine. *)
Definition iter (source : gostring) (max : Z) : list iter_event :=
  iter_loop max source 0.

(** The strings a list of actions sends, in order. *)
Fixpoint sends (events : list iter_event) : list gostring :=
  match events with
  | [] => []
  | iterSend cleansed :: events' => cleansed :: sends events'
  | iterPrintf _ :: events' => sends events'
  end.

(** The lines of a source that end with a line feed, each with its line
    feed, and the bytes after the last line feed. *)
Fixpoint split_lines (source : gostring) : list gostring * gostring :=
  match source with
  | [] => ([], [])
  | c :: rest =>
      let (lines, tail) := split_lines rest in
      if Ascii.eqb c newline then ([c] :: lines, tail)
      else
        match lines with
        | [] => ([], c :: tail)
        | l :: lines' => ((c :: l) :: lines', tail)
        end
  end.

Definition lines (source : gostring) : list gostring := fst (split_lines source).

(** The four bytes a locator is wrapped in: brace, double quote, space, brace. *)
Definition wrapping : gostring := ["{"%char; quote; " "%char; "}"%char].

(** The loop of [iter] over the lines that [ReadString] returns without
    an error, one round per line. *)
Fixpoint iter_lines (max : Z) (ls : list gostring) (start : Z) : list iter_event :=
  match ls with
  | [] => []
  | s :: ls' =>
      if (max <? 0) || (start <? max) then
        if envelope s
        then iterSend (Trim s cutset) :: iter_lines max ls' (int_add start 1)
        else iterPrintf (Sprintf "skipping line #%d\n" [opInt start])
               :: iter_lines max ls' start
      else []
  end.

(** ** Command line options *)

Record cliOptions := {
  stdout : bool;
  maxLines : Z;
  concurrency : Z
}.

Section Raven.

(** The library functions whose code is outside the program: [url.Parse],
    and [Quartile] and [Percentile] of github.com/montanaflynn/stats, each
    with the error it returns next to its value. *)
Variable url_Parse : gostring -> URL + error.
Variable stats_Quartile : list float64 -> Quartiles * option error.
Variable stats_Percentile : list float64 -> float64 -> float64 * option error.

(** ** The summary *)

(** [flockMetrics.String]. *)
Definition flockMetrics_String (m : flockMetrics) : text :=
  let (quarters, e) := stats_Quartile (sizes m) in
  match e with
  | Some e => Sprintf "invalid flock metrics, error: %v" [opError (Some e)]
  | None =>
      let (ninenine, e) := stats_Percentile (sizes m) (float64_of_int 99) in
      match e with
      | Some e => Sprintf "invalid flock metrics, error: %v" [opError (Some e)]
      | None =>
          let (ninefive, e) := stats_Percentile (sizes m) (float64_of_int 95) in
          match e with
          | Some e => Sprintf "invalid flock metrics, error: %v" [opError (Some e)]
          | None =>
              let metrics := [
                Sprintf "count[%d]" [opInt (count m)];
                Sprintf "max[%d]" [opInt (max m)];
                Sprintf "min[%d]" [opInt (min m)];
                Sprintf "avg[%f]" [opFloat (average m)];
                Sprintf "quartiles[%v]" [opQuartiles quarters];
                Sprintf "95[%f]" [opFloat ninefive];
                Sprintf "99[%f]" [opFloat ninenine];
                Sprintf "failed[%d]" [opInt (failed m)];
                Sprintf "ambiguous[%d]" [opInt (Z.of_nat (length (ambiguous_errors m)))]
              ] in
              let metrics :=
                if (Z.of_nat (length (ambiguous_errors m)) >? 0) then
                  let listing :=
                    map (fun e => Sprintf "%v\n" [opError e]) (ambiguous_errors m) in
                  metrics ++ [Sprintf "\nAMBIGUOUS RAVENS:\n%s\n" [opText (Join listing "")]]
                else metrics in
              Join metrics " "
          end
      end
  end.

(** ** The dispatch loop *)

(** One round of the loop of [main] over the channel of [iter]: the new
    [duplicates] and [leader], what is printed, and the URL for which a
    fetcher is started, if any. *)
Definition main_round (duplicates : gmap gostring bool) (leader : Z) (line : gostring)
  : gmap gostring bool * Z * text * option URL :=
  let leader := int_add leader 1 in
  match duplicates !! line with
  | Some _ =>
      (duplicates, leader,
       Sprintf "%d duplicate %v\n" [opInt leader; opString line], None)
  | None =>
      match url_Parse line with
      | inr e =>
          (duplicates, leader,
           Sprintf "line: %s had no valid url, skipping (e %v)\n"
             [opString line; opError (Some e)], None)
      | inl url =>
          (<[line := true]> duplicates, leader,
           Sprintf "%d fetching %v\n" [opInt leader; opURL url], Some url)
      end
  end.

(** The whole loop over the lines [iter] sends: the lines for which a
    fetcher is started, in order, each with the URL the fetcher gets. *)
Fixpoint main_loop (lines : list gostring) (duplicates : gmap gostring bool) (leader : Z)
  : list (gostring * URL) :=
  match lines with
  | [] => []
  | line :: lines' =>
      match main_round duplicates leader line with
      | (duplicates', leader', _, Some url) =>
          (line, url) :: main_loop lines' duplicates' leader'
      | (duplicates', leader', _, None) =>
          main_loop lines' duplicates' leader'
      end
  end.

(** ** Goroutines and channels *)

(** The program points of a goroutine that runs [processor.fetch]. *)
Inductive fetcher :=
| fetcherStart (resource : URL)
    (* before [client := <-p.queue] *)
| fetcherGet (resource : URL) (client : nat)
    (* a client is held, [client.Get] has not returned yet *)
| fetcherSent (client : nat)
    (* the result is sent, the deferred [p.queue <- client] is to run *)
| fetcherReleased
    (* the client is back in the queue, the deferred [group.Done()] is to run *)
| fetcherDone.

(** The program points of [main]. *)
Inductive main_pc :=
| mainLoop   (* in the loop over the channel of [iter] *)
| mainWait   (* at [wg.Wait()] *)
| mainExit.  (* after [fmt.Printf("done: %s\n", &rollup)] *)

Record state := {
  producer : list iter_event;          (* what the goroutine of [iter] has left to do *)
  out : list gostring;                 (* the buffer of the channel of [iter] *)
  pc : main_pc;
  duplicates : gmap gostring bool;
  leader : Z;
  wg : nat;                            (* the counter of the wait group *)
  queue : list nat;                    (* the buffer of [p.queue]: the free clients *)
  fetchers : list fetcher;
  inbox : option ravenResult;          (* the result the aggregator took and has not folded *)
  received : Z;
  rollup : flockMetrics;
  printed : list text                  (* the standard output *)
}.

(** The capacity of the channel of [iter]. *)
Definition out_capacity : nat := 100.

(** [main] up to the start of the two loops, on a file whose content is
    [source] (the checks of the file name are left out); [None] is
    [os.Exit(1)] for a concurrency that is not positive. The clients are
    numbered. *)
Definition main_start (options : cliOptions) (source : gostring) : option state :=
  if concurrency options <=? 0 then None
  else Some {|
    producer := iter source (maxLines options);
    out := [];
    pc := mainLoop;
    duplicates := ∅;
    leader := 0;
    wg := O;
    queue := seq 0 (Z.to_nat (concurrency options));
    fetchers := [];
    inbox := None;
    received := 0;
    rollup := rollup0;
    printed := [Sprintf "loading file\n" []]
  |}.

Definition holds_client (f : fetcher) : bool :=
  match f with
  | fetcherGet _ _ | fetcherSent _ => true
  | _ => false
  end.

(** A fetcher whose result is sent. *)
Definition past_send (f : fetcher) : bool :=
  match f with
  | fetcherSent _ | fetcherReleased | fetcherDone => true
  | _ => false
  end.

(** A fetcher that has not called [group.Done()]. *)
Definition pending (f : fetcher) : bool :=
  match f with
  | fetcherDone => false
  | _ => true
  end.

(** The sum of a weight, and the number of fetchers with a property. *)
Definition weigh (w : fetcher -> nat) (fs : list fetcher) : nat :=
  list_sum (map w fs).

Definition tally (p : fetcher -> bool) (fs : list fetcher) : nat :=
  weigh (fun f => if p f then 1%nat else O) fs.

(** The number of clients that fetchers have taken and not given back. *)
Definition held (s : state) : nat := tally holds_client (fetchers s).

(** The state after each kind of step. *)

(* iter: fmt.Printf("skipping line #%d\n", start) *)
Definition after_iter_printf (s : state) (t : text) (p : list iter_event) : state :=
  {| producer := p; out := out s; pc := pc s; duplicates := duplicates s;
     leader := leader s; wg := wg s; queue := queue s; fetchers := fetchers s;
     inbox := inbox s; received := received s; rollup := rollup s;
     printed := printed s ++ [t] |}.

(* iter: out <- cleansed *)
Definition after_iter_send (s : state) (cleansed : gostring) (p : list iter_event) : state :=
  {| producer := p; out := out s ++ [cleansed]; pc := pc s; duplicates := duplicates s;
     leader := leader s; wg := wg s; queue := queue s; fetchers := fetchers s;
     inbox := inbox s; received := received s; rollup := rollup s;
     printed := printed s |}.

(* main: one round of the loop, [wg.Add(1)] and [go processor.fetch(url, wg)]
   when a fetcher is started *)
Definition after_main_round (s : state) (o : list gostring)
    (duplicates' : gmap gostring bool) (leader' : Z) (t : text) (spawn : option URL) : state :=
  {| producer := producer s; out := o; pc := mainLoop;
     duplicates := duplicates'; leader := leader';
     wg := match spawn with Some _ => S (wg s) | None => wg s end;
     queue := queue s;
     fetchers := match spawn with
                 | Some url => fetchers s ++ [fetcherStart url]
                 | None => fetchers s
                 end;
     inbox := inbox s; received := received s; rollup := rollup s;
     printed := printed s ++ [t] |}.

(* main: the loop over the channel of iter ends *)
Definition after_main_closed (s : state) : state :=
  {| producer := producer s; out := out s; pc := mainWait;
     duplicates := duplicates s; leader := leader s; wg := wg s;
     queue := queue s; fetchers := fetchers s; inbox := inbox s;
     received := received s; rollup := rollup s; printed := printed s |}.

(* a step of the fetcher [i]: its new program point [f], the new buffer of
   [p.queue], the new counter of the wait group, the new inbox *)
Definition after_fetch (s : state) (i : nat) (f : fetcher) (q : list nat) (n : nat)
    (r : option ravenResult) : state :=
  {| producer := producer s; out := out s; pc := pc s; duplicates := duplicates s;
     leader := leader s; wg := n; queue := q; fetchers := <[i := f]> (fetchers s);
     inbox := r; received := received s; rollup := rollup s;
     printed := printed s |}.

(* the aggregator: received += 1, fmt.Printf, rollup.add(raven) *)
Definition after_aggregate (s : state) (raven : ravenResult) : state :=
  {| producer := producer s; out := out s; pc := pc s;
     duplicates := duplicates s; leader := leader s; wg := wg s;
     queue := queue s; fetchers := fetchers s; inbox := None;
     received := int_add (received s) 1;
     rollup := add (rollup s) raven;
     printed := printed s ++
       [Sprintf "%d received (%s)\n" [opInt (int_add (received s) 1); opString (url raven)]] |}.

(* main: the average is set and the summary printed *)
Definition after_main_done (s : state) : state :=
  {| producer := producer s; out := out s; pc := mainExit;
     duplicates := duplicates s; leader := leader s; wg := wg s;
     queue := queue s; fetchers := fetchers s; inbox := None;
     received := received s;
     rollup := set_average (rollup s);
     printed := printed s ++
       [Sprintf "done: %s\n" [opText (flockMetrics_String (set_average (rollup s)))]] |}.

(** The steps of the goroutines. [capacity] is the capacity of [p.queue],
    the configured concurrency. *)
Inductive step (capacity : nat) : state -> state -> Prop :=
(* iter prints that it skips a line *)
| step_iter_printf s t p :
    producer s = iterPrintf t :: p ->
    step capacity s (after_iter_printf s t p)
(* iter sends a locator, when the buffer of its channel has room *)
| step_iter_send s cleansed p :
    producer s = iterSend cleansed :: p ->
    (length (out s) < out_capacity)%nat ->
    step capacity s (after_iter_send s cleansed p)
(* main takes the next locator from the channel *)
| step_main_round s line o duplicates' leader' t spawn :
    pc s = mainLoop ->
    out s = line :: o ->
    main_round (duplicates s) (leader s) line = (duplicates', leader', t, spawn) ->
    step capacity s (after_main_round s o duplicates' leader' t spawn)
(* main finds the channel closed and empty *)
| step_main_closed s :
    pc s = mainLoop ->
    out s = [] ->
    producer s = [] ->
    step capacity s (after_main_closed s)
(* fetch: client := <-p.queue *)
| step_fetch_acquire s i resource client q :
    fetchers s !! i = Some (fetcherStart resource) ->
    queue s = client :: q ->
    step capacity s (after_fetch s i (fetcherGet resource client) q (wg s) (inbox s))
(* fetch: client.Get returns [got]; the result is sent on p.results, which
   the aggregator takes when it is back at the head of its loop *)
| step_fetch_send s i resource client got :
    fetchers s !! i = Some (fetcherGet resource client) ->
    inbox s = None ->
    step capacity s
      (after_fetch s i (fetcherSent client) (queue s) (wg s) (Some (fetch resource got)))
(* fetch, deferred: p.queue <- client, when the buffer has room *)
| step_fetch_release s i client :
    fetchers s !! i = Some (fetcherSent client) ->
    (length (queue s) < capacity)%nat ->
    step capacity s (after_fetch s i fetcherReleased (queue s ++ [client]) (wg s) (inbox s))
(* fetch, deferred: group.Done() *)
| step_fetch_done s i :
    fetchers s !! i = Some fetcherReleased ->
    step capacity s (after_fetch s i fetcherDone (queue s) (Nat.pred (wg s)) (inbox s))
(* the aggregator folds the result it took *)
| step_aggregate s raven :
    inbox s = Some raven ->
    step capacity s (after_aggregate s raven)
(* main: wg.Wait() returns, the result channel is closed, the aggregator
   leaves its loop and signals *)
| step_main_done s :
    pc s = mainWait ->
    wg s = O ->
    inbox s = None ->
    step capacity s (after_main_done s).

(** The states of a run: those the steps reach from the start. *)
Inductive reachable (options : cliOptions) (source : gostring) : state -> Prop :=
| reachable_start s :
    main_start options source = Some s -> reachable options source s
| reachable_step s s' :
    reachable options source s ->
    step (Z.to_nat (concurrency options)) s s' ->
    reachable options source s'.

(** A scheduler's choice: the goroutine that takes its next step and, for
    a fetcher whose [client.Get] returns, what it returns. *)
Inductive choice :=
| runIter
| runMain
| runAggregator
| runFetcher (i : nat) (got : Response + error).

(** The step a choice stands for, when that step can be taken. *)
Definition exec (capacity : nat) (c : choice) (s : state) : option state :=
  match c with
  | runIter =>
      match producer s with
      | iterPrintf t :: p => Some (after_iter_printf s t p)
      | iterSend cleansed :: p =>
          if (length (out s) <? out_capacity)%nat
          then Some (after_iter_send s cleansed p) else None
      | [] => None
      end
  | runMain =>
      match pc s with
      | mainLoop =>
          match out s with
          | line :: o =>
              let '(d', k', t, spawn) := main_round (duplicates s) (leader s) line in
              Some (after_main_round s o d' k' t spawn)
          | [] =>
              match producer s with
              | [] => Some (after_main_closed s)
              | _ :: _ => None
              end
          end
      | mainWait =>
          match wg s, inbox s with
          | O, None => Some (after_main_done s)
          | _, _ => None
          end
      | mainExit => None
      end
  | runAggregator =>
      match inbox s with
      | Some raven => Some (after_aggregate s raven)
      | None => None
      end
  | runFetcher i got =>
      match fetchers s !! i with
      | Some (fetcherStart resource) =>
          match queue s with
          | client :: q =>
              Some (after_fetch s i (fetcherGet resource client) q (wg s) (inbox s))
          | [] => None
          end
      | Some (fetcherGet resource client) =>
          match inbox s with
          | None =>
              Some (after_fetch s i (fetcherSent client) (queue s) (wg s)
                      (Some (fetch resource got)))
          | Some _ => None
          end
      | Some (fetcherSent client) =>
          if (length (queue s) <? capacity)%nat
          then Some (after_fetch s i fetcherReleased (queue s ++ [client]) (wg s) (inbox s))
          else None
      | Some fetcherReleased =>
          Some (after_fetch s i fetcherDone (queue s) (Nat.pred (wg s)) (inbox s))
      | _ => None
      end
  end.

Fixpoint run (capacity : nat) (schedule : list choice) (s : state) : option state :=
  match schedule with
  | [] => Some s
  | c :: schedule' =>
      match exec capacity c s with
      | Some s' => run capacity schedule' s'
      | None => None
      end
  end.

(** The line that carries the summary. *)
Definition is_done (t : text) : bool :=
  match t with
  | Sprintf format _ => String.eqb format "done: %s\n"
  | Join _ _ => false
  end.

(** A bound on the number of steps a state can still take: every step
    makes it smaller. *)
Definition event_weight (e : iter_event) : nat :=
  match e with iterPrintf _ => 1 | iterSend _ => 8 end.

Definition fetcher_weight (f : fetcher) : nat :=
  match f with
  | fetcherStart _ => 5
  | fetcherGet _ _ => 4
  | fetcherSent _ => 2
  | fetcherReleased => 1
  | fetcherDone => 0
  end.

Definition pc_weight (p : main_pc) : nat :=
  match p with mainLoop => 2 | mainWait => 1 | mainExit => 0 end.

Definition measure (s : state) : nat :=
  (list_sum (map event_weight (producer s)) + 6 * length (out s)
   + pc_weight (pc s) + weigh fetcher_weight (fetchers s)
   + match inbox s with Some _ => 1 | None => 0 end)%nat.

End Raven.

(** ** The statistics library

    The functions of github.com/montanaflynn/stats behind [Quartile] and
    [Percentile], for the runs that are computed below. The properties of
    the program are proved for any [stats_Quartile] and [stats_Percentile]. *)
Module stats.

Definition EmptyInputErr : error := statsError "Input must not be empty.".
Definition BoundsErr : error := statsError "Input is outside of range.".

(** [sortedCopy]: the input in increasing order. *)
Fixpoint insert_sorted (x : float64) (c : list float64) : list float64 :=
  match c with
  | [] => [x]
  | y :: c' => if SFleb x y then x :: c else y :: insert_sorted x c'
  end.

Definition sortedCopy (input : list float64) : list float64 :=
  fold_right insert_sorted [] input.

Definition Sum (input : list float64) : float64 * option error :=
  match input with
  | [] => (NaN, Some EmptyInputErr)
  | _ => (fold_left float64_add input (float64_of_int 0), None)
  end.

Definition Mean (input : list float64) : float64 * option error :=
  match input with
  | [] => (NaN, Some EmptyInputErr)
  | _ => (float64_div (fst (Sum input)) (float64_of_int (Z.of_nat (length input))), None)
  end.

Definition Median (input : list float64) : float64 * option error :=
  let c := sortedCopy input in
  let l := length c in
  if (l =? 0)%nat then (NaN, Some EmptyInputErr)
  else if (l mod 2 =? 0)%nat
    then (fst (Mean (firstn 2 (skipn (l / 2 - 1) c))), None)
    else (nth (l / 2) c NaN, None).

Definition Quartile (input : list float64) : Quartiles * option error :=
  let il := length input in
  if (il =? 0)%nat
  then ({| Q1 := float64_of_int 0; Q2 := float64_of_int 0; Q3 := float64_of_int 0 |},
        Some EmptyInputErr)
  else
    let copy := sortedCopy input in
    let c1 := if (il mod 2 =? 0)%nat then (il / 2)%nat else ((il - 1) / 2)%nat in
    let c2 := if (il mod 2 =? 0)%nat then (il / 2)%nat else (c1 + 1)%nat in
    ({| Q1 := fst (Median (firstn c1 copy));
        Q2 := fst (Median copy);
        Q3 := fst (Median (skipn c2 copy)) |}, None).

(** The conversion of a finite [float64] to an integer: towards zero. *)
Definition to_int (x : float64) : Z :=
  match x with
  | S754_finite s m e =>
      let a := if 0 <=? e then Z.pos m * 2 ^ e else Z.pos m / 2 ^ (- e) in
      if s then - a else a
  | _ => 0
  end.

Definition Percentile (input : list float64) (percent : float64) : float64 * option error :=
  let length := length input in
  if (length =? 0)%nat then (NaN, Some EmptyInputErr)
  else if (length =? 1)%nat then (nth 0 input NaN, None)
  else if SFleb percent (float64_of_int 0) || SFltb (float64_of_int 100) percent
  then (NaN, Some BoundsErr)
  else
    let c := sortedCopy input in
    let index :=
      float64_mul (float64_div percent (float64_of_int 100))
                  (float64_of_int (Z.of_nat (List.length c))) in
    if SFeqb index (float64_of_int (to_int index)) then
      (nth (Z.to_nat (to_int index) - 1) c NaN, None)
    else if SFltb (float64_of_int 1) index then
      let i := Z.to_nat (to_int index) in
      (fst (Mean [nth (i - 1) c NaN; nth i c NaN]), None)
    else (NaN, Some BoundsErr).

End stats.

(** The nine fields of the summary, as [flockMetrics.String] lays them out,
    and the text it returns when the statistics library reports an error. *)
Definition summary_fields (m : flockMetrics) (quarters : Quartiles)
    (ninefive ninenine : float64) : list text :=
  [Sprintf "count[%d]" [opInt (count m)];
   Sprintf "max[%d]" [opInt (max m)];
   Sprintf "min[%d]" [opInt (min m)];
   Sprintf "avg[%f]" [opFloat (average m)];
   Sprintf "quartiles[%v]" [opQuartiles quarters];
   Sprintf "95[%f]" [opFloat ninefive];
   Sprintf "99[%f]" [opFloat ninenine];
   Sprintf "failed[%d]" [opInt (failed m)];
   Sprintf "ambiguous[%d]" [opInt (Z.of_nat (length (ambiguous_errors m)))]].

Definition ambiguous_listing (m : flockMetrics) : list text :=
  match ambiguous_errors m with
  | [] => []
  | _ :: _ =>
      [Sprintf "\nAMBIGUOUS RAVENS:\n%s\n"
         [opText (Join (map (fun e => Sprintf "%v\n" [opError e]) (ambiguous_errors m)) "")]]
  end.

Definition invalid_metrics (e : error) : text :=
  Sprintf "invalid flock metrics, error: %v" [opError (Some e)].

(** A stand-in for [url.Parse] in the runs that are computed below: like
    [url.Parse] it rejects a string with an ASCII control character; every
    other string it takes as the text of its URL. *)
Definition url_Parse_plain (rawURL : gostring) : URL + error :=
  if existsb (fun c => let n := nat_of_ascii c in (n <? 32)%nat || (n =? 127)%nat) rawURL
  then inr (errors_New "net/url: invalid control character in URL")
  else inl {| URL_String := rawURL |}.

(** The locators that [url.Parse] accepts. *)
Definition parses (url_Parse : gostring -> URL + error) (line : gostring) : bool :=
  match url_Parse line with inl _ => true | inr _ => false end.

(** ** What holds in every state of a run *)

Section Invariant.

Variable url_Parse : gostring -> URL + error.
Variable stats_Quartile : list float64 -> Quartiles * option error.
Variable stats_Percentile : list float64 -> float64 -> float64 * option error.
Variable options : cliOptions.
Variable source : gostring.

(** The line [main] prints at the end. *)
Definition done_line (m : flockMetrics) : text :=
  Sprintf "done: %s\n" [opText (flockMetrics_String stats_Quartile stats_Percentile m)].

(** The number of fetchers the run starts in all. *)
Definition dispatched : nat :=
  length (main_loop url_Parse (sends (iter source (maxLines options))) ∅ 0).

(** - the clients are in the queue or held by a fetcher;
    - the wait group counts the fetchers that are not done;
    - the rollup is the fold of the results sent, but for the one the
      aggregator has just taken;
    - the fetchers started and those the loop of [main] has yet to start
      are the fetchers of the run;
    - at the end the wait group is at zero and the aggregator idle;
    - [iter] never prints a summary line;
    - the summary line is printed at the end, as the last line, and not
      before. *)
Record invariant (s : state) : Prop := {
  inv_clients : (length (queue s) + held s = Z.to_nat (concurrency options))%nat;
  inv_wg : wg s = tally pending (fetchers s);
  inv_folded :
    exists folded : list ravenResult,
      rollup s = (match pc s with
                  | mainExit => set_average (drain folded)
                  | _ => drain folded
                  end)
      /\ (length folded + match inbox s with Some _ => 1 | None => 0 end
          = tally past_send (fetchers s))%nat
      /\ received s = int (Z.of_nat (length folded));
  inv_dispatch :
    match pc s with
    | mainLoop =>
        dispatched
        = (length (fetchers s)
           + length (main_loop url_Parse (out s ++ sends (producer s))
                       (duplicates s) (leader s)))%nat
    | _ => producer s = [] /\ out s = [] /\ dispatched = length (fetchers s)
    end;
  inv_exit : pc s = mainExit -> wg s = O /\ inbox s = None;
  inv_producer :
    Forall (fun e => match e with iterPrintf t => is_done t = false | iterSend _ => True end)
      (producer s);
  inv_printed :
    match pc s with
    | mainExit =>
        exists before,
          printed s = before ++ [done_line (rollup s)]
          /\ List.filter is_done before = []
    | _ => List.filter is_done (printed s) = []
    end
}.

End Invariant.

(** ** Sample inputs and runs *)

(** Sources of one, two, three and four lines; in [twice] the first locator
    comes again, in [four_lines] the second line is not an envelope, and
    the line of [one_line] has spaces around its envelope and ends with a
    carriage return and a line feed. *)
Definition one_locator : gostring :=
  str "{" ++ [quote] ++ str "http://a" ++ [quote] ++ str "}" ++ [newline].

Definition two_locators : gostring :=
  str "{" ++ [quote] ++ str "http://a" ++ [quote] ++ str "}" ++ [newline]
  ++ str "{" ++ [quote] ++ str "http://b" ++ [quote] ++ str "}" ++ [newline].

Definition twice : gostring :=
  str "{" ++ [quote] ++ str "http://a" ++ [quote] ++ str "}" ++ [newline]
  ++ str "{" ++ [quote] ++ str "http://b" ++ [quote] ++ str "}" ++ [newline]
  ++ str "{" ++ [quote] ++ str "http://a" ++ [quote] ++ str "}" ++ [newline].

Definition four_lines : gostring :=
  str "{" ++ [quote] ++ str "http://a" ++ [quote] ++ str "}" ++ [newline]
  ++ str "not-an-envelope" ++ [newline]
  ++ str "{" ++ [quote] ++ str "http://b" ++ [quote] ++ str "}" ++ [newline]
  ++ str "{" ++ [quote] ++ str "http://c" ++ [quote] ++ str "}" ++ [newline].

Definition one_line : gostring :=
  str " { " ++ [quote] ++ str "http://a" ++ [quote] ++ str "}" ++ [byte 13; newline].

(** The options of a run with a single client and no limit on the lines. *)
Definition one_client : cliOptions :=
  {| stdout := true; maxLines := -1; concurrency := 1 |}.

(** Answers of a server: 404, and 200 with a declared length. *)
Definition not_found : Response + error :=
  inl {| StatusCode := 404; Header_Get_ContentLength := [] |}.

Definition found (n : string) : Response + error :=
  inl {| StatusCode := 200; Header_Get_ContentLength := str n |}.

(** One success of 1234 bytes, one 404 and one response without a length. *)
Definition three_results : list ravenResult :=
  [fetch {| URL_String := str "http://a" |} (found "1234");
   fetch {| URL_String := str "http://b" |} not_found;
   fetch {| URL_String := str "http://c" |}
     (inl {| StatusCode := 200; Header_Get_ContentLength := [] |})].

(** Two fetches that both succeed with a declared length of [2 ^ 62]. *)
Definition two_large_results : list ravenResult :=
  [fetch {| URL_String := str "http://a" |} (found "4611686018427387904");
   fetch {| URL_String := str "http://b" |} (found "4611686018427387904")].

(** The run on [one_locator] in which the server answers 404. *)
Definition not_found_schedule : list choice :=
  [runIter; runMain; runMain; runFetcher 0 not_found; runFetcher 0 not_found;
   runAggregator; runFetcher 0 not_found; runFetcher 0 not_found; runMain].

Definition not_found_run : option state :=
  match main_start one_client one_locator with
  | Some s =>
      run url_Parse_plain stats.Quartile stats.Percentile
        (Z.to_nat (concurrency one_client)) not_found_schedule s
  | None => None
  end.

(** The run on [two_locators] in which the fetches succeed with 300 and 100
    bytes, one after the other. *)
Definition found_schedule : list choice :=
  [runIter; runIter; runMain; runMain; runMain;
   runFetcher 0 (found "300"); runFetcher 0 (found "300"); runAggregator;
   runFetcher 0 (found "300"); runFetcher 0 (found "300");
   runFetcher 1 (found "100"); runFetcher 1 (found "100"); runAggregator;
   runFetcher 1 (found "100"); runFetcher 1 (found "100"); runMain].

Definition found_run : option state :=
  match main_start one_client two_locators with
  | Some s =>
      run url_Parse_plain stats.Quartile stats.Percentile
        (Z.to_nat (concurrency one_client)) found_schedule s
  | None => None
  end.

(** The start of a run on [two_locators]: the second fetcher waits for the
    only client while the first holds it. *)
Definition waiting_schedule : list choice :=
  [runIter; runIter; runMain; runMain; runMain; runFetcher 0 (found "300")].

Definition waiting_run : option state :=
  match main_start one_client two_locators with
  | Some s =>
      run url_Parse_plain stats.Quartile stats.Percentile
        (Z.to_nat (concurrency one_client)) waiting_schedule s
  | None => None
  end.

(** ** Notions for the further properties *)

(** A result that carries an error. *)
Definition has_error (raven : ravenResult) : bool :=
  match exception raven with Some _ => true | None => false end.

(** The results [fetch] can send. *)
Definition fetched (raven : ravenResult) : Prop :=
  exists resource got, raven = fetch resource got.

Definition is_send (e : iter_event) : bool :=
  match e with iterSend _ => true | iterPrintf _ => false end.

(** The client a fetcher holds, and the clients the fetchers hold. *)
Definition client_of (f : fetcher) : list nat :=
  match f with
  | fetcherGet _ client | fetcherSent client => [client]
  | _ => []
  end.

Definition held_clients (fs : list fetcher) : list nat := flat_map client_of fs.

(** A source without an envelope, and the run on it. *)
Definition no_envelope : gostring := str "not-an-envelope" ++ [newline].

Definition no_envelope_run : option state :=
  match main_start one_client no_envelope with
  | Some s =>
      run url_Parse_plain stats.Quartile stats.Percentile
        (Z.to_nat (concurrency one_client)) [runIter; runMain; runMain] s
  | None => None
  end.

(** * Properties *)

(** ** The library functions, computed *)

Example TrimSpace_ascii :
  TrimSpace (str "  {a} " ++ [byte 9; byte 13; newline]) = str "{a}".
Proof. reflexivity. Qed.

Example TrimSpace_unicode :
  TrimSpace ([byte 194; byte 160] ++ str "{a}" ++ [byte 226; byte 128; byte 168; newline])
  = str "{a}".
Proof. reflexivity. Qed.

Example TrimSpace_invalid_utf8 :
  TrimSpace (str " " ++ [byte 160] ++ str "{a} ") = [byte 160] ++ str "{a}".
Proof. reflexivity. Qed.

Example Trim_cutset :
  Trim (str "{ " ++ [quote] ++ str "http://a b" ++ [quote] ++ str " }" ++ [newline]) cutset
  = str "http://a b".
Proof. reflexivity. Qed.

Example iter_four_lines :
  iter four_lines 2
  = [iterSend (str "http://a");
     iterPrintf (Sprintf "skipping line #%d\n" [opInt 1]);
     iterSend (str "http://b")].
Proof. reflexivity. Qed.

Example Atoi_1234 : Atoi (str "1234") = (1234, None).
Proof. reflexivity. Qed.

Example Atoi_plus : Atoi (str "+7") = (7, None).
Proof. reflexivity. Qed.

Example Atoi_minus : Atoi (str "-5") = (-5, None).
Proof. reflexivity. Qed.

Example Atoi_syntax : Atoi (str "12a") = (0, Some (syntaxError "Atoi" (str "12a"))).
Proof. reflexivity. Qed.

Example Atoi_sign_only : Atoi (str "-") = (0, Some (syntaxError "Atoi" (str "-"))).
Proof. reflexivity. Qed.

Example Atoi_maxInt : Atoi (str "9223372036854775807") = (maxInt, None).
Proof. reflexivity. Qed.

Example Atoi_range :
  Atoi (str "9223372036854775808")
  = (maxInt, Some (rangeError "Atoi" (str "9223372036854775808"))).
Proof. reflexivity. Qed.

Example Quartile_two :
  stats.Quartile [float64_of_int 300; float64_of_int 100]
  = ({| Q1 := float64_of_int 100; Q2 := float64_of_int 200; Q3 := float64_of_int 300 |}, None).
Proof. vm_compute. reflexivity. Qed.

Example Percentile_two :
  stats.Percentile [float64_of_int 300; float64_of_int 100] (float64_of_int 99)
  = (float64_of_int 200, None).
Proof. vm_compute. reflexivity. Qed.

Example Percentile_five :
  stats.Percentile (map float64_of_int [5; 1; 4; 2; 3]) (float64_of_int 95)
  = (float64_div (float64_of_int 9) (float64_of_int 2), None).
Proof. vm_compute. reflexivity. Qed.

(** ** Integers *)

Lemma minInt_eq : minInt = -9223372036854775808.
Proof. reflexivity. Qed.

Lemma maxInt_eq : maxInt = 9223372036854775807.
Proof. reflexivity. Qed.

Lemma int_in_range (z : Z) : in_int z -> int z = z.
Proof.
  unfold in_int, int, minInt, maxInt, intSize. intros H.
  change (2 ^ (64 - 1)) with 9223372036854775808 in *.
  change (2 ^ 64) with 18446744073709551616.
  rewrite Z.mod_small; lia.
Qed.

Lemma int_int_add (a b : Z) : int (int a + b) = int (a + b).
Proof.
  unfold int, intSize.
  change (2 ^ (64 - 1)) with 9223372036854775808.
  change (2 ^ 64) with 18446744073709551616.
  f_equal.
  replace ((a + 9223372036854775808) mod 18446744073709551616 - 9223372036854775808
           + b + 9223372036854775808)
    with ((a + 9223372036854775808) mod 18446744073709551616 + b) by lia.
  rewrite Zplus_mod_idemp_l. f_equal. lia.
Qed.

Lemma int_add_int (a b : Z) : int_add (int a) b = int (a + b).
Proof. apply int_int_add. Qed.

Lemma int_0 : int 0 = 0.
Proof. reflexivity. Qed.

(** ** The aggregator *)

Lemma drain_snoc (results : list ravenResult) (raven : ravenResult) :
  drain (results ++ [raven]) = add (drain results) raven.
Proof. unfold drain. rewrite fold_left_app. reflexivity. Qed.

Lemma successful_sizes_snoc (results : list ravenResult) (raven : ravenResult) :
  successful_sizes (results ++ [raven])
  = successful_sizes results
    ++ match exception raven with None => [size raven] | Some _ => [] end.
Proof.
  unfold successful_sizes. rewrite filter_app, map_app. f_equal.
  cbn. destruct (exception raven) eqn:E.
  - rewrite decide_False; [reflexivity | congruence].
  - rewrite decide_True; [reflexivity | congruence].
Qed.

Lemma total_snoc (sizes : list Z) (x : Z) : total (sizes ++ [x]) = total sizes + x.
Proof. unfold total. induction sizes as [|y sizes IH]; simpl; lia. Qed.

Lemma count_drain (results : list ravenResult) :
  count (drain results) = int (Z.of_nat (length results)).
Proof.
  induction results as [|raven results IH] using rev_ind; [reflexivity|].
  rewrite drain_snoc, length_app, Nat2Z.inj_add. simpl length.
  unfold add. destruct (exception raven); simpl; rewrite IH; apply int_add_int.
Qed.

Lemma sum_drain (results : list ravenResult) :
  sum (drain results) = int (total (successful_sizes results)).
Proof.
  induction results as [|raven results IH] using rev_ind; [reflexivity|].
  rewrite drain_snoc, successful_sizes_snoc.
  unfold add. destruct (exception raven); simpl.
  - rewrite app_nil_r. exact IH.
  - rewrite IH, total_snoc. apply int_add_int.
Qed.

Lemma sizes_drain (results : list ravenResult) :
  sizes (drain results) = map float64_of_int (successful_sizes results).
Proof.
  induction results as [|raven results IH] using rev_ind; [reflexivity|].
  rewrite drain_snoc, successful_sizes_snoc.
  unfold add. destruct (exception raven); simpl.
  - rewrite app_nil_r. exact IH.
  - rewrite IH, map_app. reflexivity.
Qed.

Lemma fold_min_snoc (l : list Z) (x : Z) :
  fold_right Z.min 0 (l ++ [x]) = Z.min (fold_right Z.min 0 l) x.
Proof. induction l as [|y l IH]; simpl; [lia | rewrite IH; lia]. Qed.

Lemma fold_max_snoc (l : list Z) (x : Z) :
  fold_right Z.max 0 (l ++ [x]) = Z.max (fold_right Z.max 0 l) x.
Proof. induction l as [|y l IH]; simpl; [lia | rewrite IH; lia]. Qed.

Lemma min_drain (results : list ravenResult) :
  min (drain results) = fold_right Z.min 0 (successful_sizes results).
Proof.
  induction results as [|raven results IH] using rev_ind; [reflexivity|].
  rewrite drain_snoc, successful_sizes_snoc.
  unfold add. destruct (exception raven); simpl.
  - rewrite app_nil_r. exact IH.
  - rewrite fold_min_snoc, <- IH.
    destruct (Z.gtb_spec (min (drain results)) (size raven)); lia.
Qed.

Lemma max_drain (results : list ravenResult) :
  max (drain results) = fold_right Z.max 0 (successful_sizes results).
Proof.
  induction results as [|raven results IH] using rev_ind; [reflexivity|].
  rewrite drain_snoc, successful_sizes_snoc.
  unfold add. destruct (exception raven); simpl.
  - rewrite app_nil_r. exact IH.
  - rewrite fold_max_snoc, <- IH.
    destruct (Z.ltb_spec (max (drain results)) (size raven)); lia.
Qed.

Lemma fold_min_positive (l : list Z) :
  Forall (fun x => 0 < x) l -> fold_right Z.min 0 l = 0.
Proof. induction 1 as [|x l Hx _ IH]; simpl; [reflexivity | rewrite IH; lia]. Qed.

(** ** The average (claim C1) *)

(** C1, counterexample: after two successful results of size [2 ^ 62] each,
    [rollup.sum] has wrapped around to [- 2 ^ 63] and the average is
    [- 2 ^ 62], which is not the sum of the successful sizes, [2 ^ 63],
    divided by the number of results, [2]. *)
Lemma average_wraps_counterexample :
  two_large_results <> []
  /\ average (set_average (drain two_large_results))
     <> float64_div (float64_of_int (total (successful_sizes two_large_results)))
                    (float64_of_int (Z.of_nat (length two_large_results))).
Proof. split; vm_compute; discriminate. Qed.

(** C1, amended: once the results are folded, the average is the quotient,
    in [float64], of [sum] by [count], where [count] is the number of all
    the results folded, failed and ambiguous ones included, and [sum] is the
    sum of the sizes of the results without an error, both as the [int]
    they are held in (reduced modulo [2 ^ 64]). When the sum of the sizes
    and the number of results fit in an [int], the average is exactly the
    sum of the successful sizes divided by the number of results. *)
Theorem average_is_sum_over_count (results : list ravenResult) :
  results <> [] ->
  let m := set_average (drain results) in
  average m
  = float64_div (float64_of_int (int (total (successful_sizes results))))
                (float64_of_int (int (Z.of_nat (length results))))
  /\ (in_int (total (successful_sizes results)) ->
      in_int (Z.of_nat (length results)) ->
      average m
      = float64_div (float64_of_int (total (successful_sizes results)))
                    (float64_of_int (Z.of_nat (length results)))).
Proof.
  intros _ m.
  assert (H : average m
              = float64_div (float64_of_int (int (total (successful_sizes results))))
                            (float64_of_int (int (Z.of_nat (length results))))).
  { unfold m, set_average. simpl. rewrite sum_drain, count_drain. reflexivity. }
  split; [exact H|].
  intros Hsum Hcount. rewrite H, (int_in_range _ Hsum), (int_in_range _ Hcount).
  reflexivity.
Qed.

Lemma average_is_sum_over_count_witness :
  three_results <> []
  /\ average (set_average (drain three_results))
     = float64_div (float64_of_int 1234) (float64_of_int 3).
Proof.
  split; [discriminate|].
  refine (proj2 (average_is_sum_over_count three_results _) _ _);
    [discriminate | vm_compute; split; discriminate | vm_compute; split; discriminate].
Defined.

(** ** The extrema (claim C9) *)

(** C9: [min] and [max] start at zero; [add] lowers [min] only to the size
    of a result without an error that is strictly smaller, and raises [max]
    only to one that is strictly larger. So at the end of a run [min] is
    the least of zero and the successful sizes and [max] the greatest of
    zero and the successful sizes; when every successful size is positive,
    [min] is zero. *)
Theorem min_max_start_at_zero (results : list ravenResult) :
  min rollup0 = 0 /\ max rollup0 = 0
  /\ (forall m raven,
        min (add m raven)
        = match exception raven with
          | None => if size raven <? min m then size raven else min m
          | Some _ => min m
          end)
  /\ (forall m raven,
        max (add m raven)
        = match exception raven with
          | None => if max m <? size raven then size raven else max m
          | Some _ => max m
          end)
  /\ min (set_average (drain results)) = fold_right Z.min 0 (successful_sizes results)
  /\ max (set_average (drain results)) = fold_right Z.max 0 (successful_sizes results)
  /\ (Forall (fun x => 0 < x) (successful_sizes results) ->
      min (set_average (drain results)) = 0).
Proof.
  repeat split.
  - intros m raven. unfold add. destruct (exception raven); simpl; [reflexivity|].
    rewrite Z.gtb_ltb. reflexivity.
  - intros m raven. unfold add. destruct (exception raven); reflexivity.
  - simpl. apply min_drain.
  - simpl. apply max_drain.
  - intros H. simpl. rewrite min_drain. apply fold_min_positive, H.
Qed.

Lemma min_max_start_at_zero_witness :
  min (set_average (drain three_results)) = 0.
Proof.
  refine (proj2 (proj2 (proj2 (proj2 (proj2 (proj2 (min_max_start_at_zero three_results)))))) _).
  vm_compute. repeat constructor.
Defined.

(** ** The classification of a response with a declared length (claim C2) *)

(** C2, counterexample: a response with status 200 and the declared length
    [-5], an integer that is not a non-negative integer, gives a result
    without an error whose size is [-5]. *)
Lemma fetch_negative_length_counterexample :
  let raven :=
    fetch {| URL_String := str "http://a" |}
      (inl {| StatusCode := 200; Header_Get_ContentLength := str "-5" |}) in
  signed_decimal (str "-5") = Some (-5)
  /\ exception raven = None /\ ambiguous raven = false /\ size raven = -5.
Proof. vm_compute. repeat split. Qed.

(** *** What [strconv.Atoi] accepts *)

Lemma digit_range (c : ascii) (d : Z) : digit c = Some d -> 0 <= d <= 9.
Proof.
  unfold digit.
  destruct (Z.leb_spec 48 (Z.of_N (N_of_ascii c))) as [H1|H1]; simpl; [|discriminate].
  destruct (Z.leb_spec (Z.of_N (N_of_ascii c)) 57) as [H2|H2]; [|discriminate].
  intros H. inversion H. lia.
Qed.

Lemma decimal_grows (digits : gostring) (acc v : Z) :
  0 <= acc -> decimal digits acc = Some v -> acc <= v.
Proof.
  revert acc. induction digits as [|c digits IH]; simpl; intros acc Hacc H.
  - inversion H. lia.
  - destruct (digit c) as [d|] eqn:Ed; [|discriminate].
    pose proof (digit_range _ _ Ed) as Hd.
    specialize (IH (acc * 10 + d) ltac:(lia) H). lia.
Qed.

Lemma maxUint64_eq : maxUint64 = 18446744073709551615.
Proof. reflexivity. Qed.

(** The loop of [ParseUint] reads a string of digits whose value fits 64
    bits, and nothing else. *)
Lemma ParseUint_loop_decimal (s : gostring) (n v : Z) :
  0 <= n <= maxUint64 ->
  ParseUint_loop s n = inl v <-> decimal s n = Some v /\ v <= maxUint64.
Proof.
  revert n. induction s as [|c s IH]; simpl; intros n Hn.
  - split.
    + intros H. inversion H; subst. split; [reflexivity | lia].
    + intros [H _]. inversion H. reflexivity.
  - destruct (digit c) as [d|] eqn:Ed; [|split; [discriminate | intros [H _]; discriminate]].
    pose proof (digit_range _ _ Ed) as Hd.
    rewrite maxUint64_eq in *.
    change (18446744073709551615 / 10 + 1) with 1844674407370955162.
    destruct (Z.geb_spec n 1844674407370955162) as [Hcut|Hcut].
    + split; [discriminate|]. intros [H Hv]. exfalso.
      pose proof (decimal_grows s (n * 10 + d) v ltac:(lia) H). lia.
    + destruct (Z.gtb_spec (n * 10 + d) 18446744073709551615) as [Hbig|Hbig].
      * split; [discriminate|]. intros [H Hv]. exfalso.
        pose proof (decimal_grows s (n * 10 + d) v ltac:(lia) H). lia.
      * apply IH. lia.
Qed.

Lemma Atoi_digits_decimal (s0 : gostring) (neg : bool) (digits : gostring) (n : Z) :
  Atoi_digits s0 neg digits = (n, None)
  <-> exists un, unsigned_decimal digits = Some un
                 /\ n = (if neg then - un else un) /\ in_int n.
Proof.
  unfold in_int. rewrite minInt_eq, maxInt_eq.
  unfold Atoi_digits, unsigned_decimal.
  destruct digits as [|x digits];
    [split; [discriminate | intros [un [H _]]; discriminate]|].
  change (2 ^ (intSize - 1)) with 9223372036854775808.
  destruct (ParseUint_loop (x :: digits) 0) as [un|[|]] eqn:E.
  - apply ParseUint_loop_decimal in E; [|rewrite maxUint64_eq; lia].
    destruct E as [E Hmax].
    pose proof (decimal_grows (x :: digits) 0 un ltac:(lia) E) as Hpos.
    destruct neg; cbn [negb andb].
    + destruct (Z.gtb_spec un 9223372036854775808) as [Hgt|Hgt].
      * split; [discriminate|]. intros [un' [H1 [H2 H3]]]. rewrite E in H1.
        inversion H1; subst. exfalso. lia.
      * split.
        -- intros H. inversion H as [Hn]. exists un. repeat split; try lia. exact E.
        -- intros [un' [H1 [H2 H3]]]. rewrite E in H1. inversion H1; subst. reflexivity.
    + destruct (Z.geb_spec un 9223372036854775808) as [Hgt|Hgt].
      * split; [discriminate|]. intros [un' [H1 [H2 H3]]]. rewrite E in H1.
        inversion H1; subst. exfalso. lia.
      * split.
        -- intros H. inversion H as [Hn]. exists un. repeat split; try lia. exact E.
        -- intros [un' [H1 [H2 H3]]]. rewrite E in H1. inversion H1; subst. reflexivity.
  - split; [discriminate|]. intros [un [H1 [H2 H3]]].
    assert (Hle : un <= maxUint64) by (rewrite maxUint64_eq; destruct neg; lia).
    pose proof (proj2 (ParseUint_loop_decimal (x :: digits) 0 un
                         ltac:(rewrite maxUint64_eq; lia)) (conj H1 Hle)) as HP.
    congruence.
  - split; [discriminate|]. intros [un [H1 [H2 H3]]].
    assert (Hle : un <= maxUint64) by (rewrite maxUint64_eq; destruct neg; lia).
    pose proof (proj2 (ParseUint_loop_decimal (x :: digits) 0 un
                         ltac:(rewrite maxUint64_eq; lia)) (conj H1 Hle)) as HP.
    congruence.
Qed.

(** [strconv.Atoi] accepts the strings that are an optional sign followed
    by at least one decimal digit and that denote an integer in the range
    of [int], and returns that integer. *)
Lemma Atoi_signed_decimal (s : gostring) (n : Z) :
  Atoi s = (n, None) <-> signed_decimal s = Some n /\ in_int n.
Proof.
  destruct s as [|c s]; [split; [discriminate | intros [H _]; discriminate]|].
  unfold Atoi, signed_decimal. rewrite Atoi_digits_decimal.
  destruct (Ascii.eqb c "-"); [|destruct (Ascii.eqb c "+")]; cbn [orb].
  - split.
    + intros [un [H1 [H2 H3]]]. rewrite H1. subst. split; [reflexivity | exact H3].
    + intros [H1 H2]. destruct (unsigned_decimal s) as [un|]; [|discriminate].
      simpl in H1. inversion H1; subst. exists un. repeat split; apply H2.
  - split.
    + intros [un [H1 [H2 H3]]]. subst. split; assumption.
    + intros [H1 H2]. exists n. repeat split; try apply H2. exact H1.
  - split.
    + intros [un [H1 [H2 H3]]]. subst. split; assumption.
    + intros [H1 H2]. exists n. repeat split; try apply H2. exact H1.
Qed.

(** C2, amended: for a response with a status below 400 and a declared
    length that is not empty, the result is a result without an error
    whose size is the declared length when that is an integer, written as
    an optional sign and decimal digits, in the range of [int], be it
    negative; and when the declared length is no such integer, the result
    is an error result with [ambiguous = true], the error of
    [strconv.Atoi], and no size. *)
Theorem fetch_declared_length (resource : URL) (response : Response) :
  StatusCode response < 400 ->
  Header_Get_ContentLength response <> [] ->
  (forall length,
      signed_decimal (Header_Get_ContentLength response) = Some length ->
      in_int length ->
      fetch resource (inl response)
      = {| url := URL_String resource; completed := true;
           status := StatusCode response; exception := None;
           size := length; ambiguous := false |})
  /\ ((forall length,
          signed_decimal (Header_Get_ContentLength response) = Some length ->
          ~ in_int length) ->
      exists e,
        snd (Atoi (Header_Get_ContentLength response)) = Some e
        /\ fetch resource (inl response)
           = {| url := URL_String resource; completed := true; status := 0;
                exception := Some e; size := 0; ambiguous := true |}).
Proof.
  intros Hstatus Hvalue.
  assert (Hfetch :
            fetch resource (inl response)
            = match Atoi (Header_Get_ContentLength response) with
              | (_, Some e) =>
                  {| url := URL_String resource; completed := true; status := 0;
                     exception := Some e; size := 0; ambiguous := true |}
              | (length, None) =>
                  {| url := URL_String resource; completed := true;
                     status := StatusCode response; exception := None;
                     size := length; ambiguous := false |}
              end).
  { unfold fetch.
    destruct (Z.gtb_spec (StatusCode response) 399) as [H|H]; [lia|].
    destruct (Header_Get_ContentLength response) as [|c value] eqn:E; [congruence|].
    replace (Z.of_nat (length (c :: value)) <=? 0) with false
      by (symmetry; apply Z.leb_gt; simpl length; lia).
    reflexivity. }
  rewrite Hfetch.
  destruct (Atoi (Header_Get_ContentLength response)) as [n [e|]] eqn:E.
  - split.
    + intros length Hd Hr.
      rewrite (proj2 (Atoi_signed_decimal _ length) (conj Hd Hr)) in E. discriminate.
    + intros _. exists e. split; reflexivity.
  - destruct (proj1 (Atoi_signed_decimal _ n) E) as [Hd Hr]. split.
    + intros length Hd' _. rewrite Hd in Hd'. inversion Hd'; subst. reflexivity.
    + intros H. destruct (H n Hd Hr).
Qed.

Lemma fetch_declared_length_witness :
  fetch {| URL_String := str "http://a" |}
    (inl {| StatusCode := 200; Header_Get_ContentLength := str "1234" |})
  = {| url := str "http://a"; completed := true; status := 200;
       exception := None; size := 1234; ambiguous := false |}.
Proof.
  refine (proj1 (fetch_declared_length {| URL_String := str "http://a" |}
                   {| StatusCode := 200; Header_Get_ContentLength := str "1234" |} _ _)
            1234 _ _).
  - vm_compute. reflexivity.
  - discriminate.
  - reflexivity.
  - vm_compute. split; discriminate.
Defined.

(** ** The producer (claims C5, C6 and C10) *)

Lemma iter_loop_eq (max : Z) (buffered : gostring) (start : Z) :
  iter_loop max buffered start
  = if (max <? 0) || (start <? max) then
      match ReadString buffered with
      | (s, Some e, rest) => []
      | (s, None, rest) =>
          if envelope s
          then iterSend (Trim s cutset) :: iter_loop max rest (int_add start 1)
          else iterPrintf (Sprintf "skipping line #%d\n" [opInt start])
                 :: iter_loop max rest start
      end
    else [].
Proof.
  funelim (iter_loop max buffered start);
    try match goal with H : (_ || _) = _ |- _ => rewrite H end;
    try match goal with H : ReadString _ = _ |- _ => rewrite H end;
    reflexivity.
Qed.

Lemma ReadString_line (buffered s rest : gostring) :
  ReadString buffered = (s, None, rest) ->
  exists line, s = line ++ [newline] /\ ~ In newline line /\ buffered = s ++ rest.
Proof.
  revert s rest.
  induction buffered as [|c buffered IH]; simpl; intros s rest H; [discriminate|].
  destruct (Ascii.eqb_spec c newline) as [->|Hc].
  - inversion H; subst. exists []. repeat split. intros [].
  - destruct (ReadString buffered) as [[s' e'] rest'] eqn:E.
    inversion H; subst.
    destruct (IH _ _ eq_refl) as [line [-> [Hline ->]]].
    exists (c :: line). repeat split.
    intros [Heq|Hin]; [congruence | exact (Hline Hin)].
Qed.

Lemma ReadString_EOF (buffered s rest : gostring) (e : error) :
  ReadString buffered = (s, Some e, rest) ->
  s = buffered /\ rest = [] /\ e = io_EOF /\ ~ In newline buffered.
Proof.
  revert s rest.
  induction buffered as [|c buffered IH]; simpl; intros s rest H.
  - inversion H; subst. repeat split. intros [].
  - destruct (Ascii.eqb_spec c newline) as [->|Hc]; [discriminate|].
    destruct (ReadString buffered) as [[s' e'] rest'] eqn:E.
    inversion H; subst.
    destruct (IH _ _ eq_refl) as [-> [-> [He Hin]]].
    repeat split; [exact He|].
    intros [Heq|Hin']; [congruence | exact (Hin Hin')].
Qed.

Lemma split_lines_tail (tail : gostring) :
  ~ In newline tail -> split_lines tail = ([], tail).
Proof.
  induction tail as [|c tail IH]; intros H; [reflexivity|].
  simpl. rewrite IH by (intros Hin; apply H; right; exact Hin).
  destruct (Ascii.eqb_spec c newline) as [->|Hc]; [|reflexivity].
  exfalso. apply H. left. reflexivity.
Qed.

Lemma split_lines_line (line rest : gostring) :
  ~ In newline line ->
  split_lines (line ++ newline :: rest)
  = ((line ++ [newline]) :: fst (split_lines rest), snd (split_lines rest)).
Proof.
  induction line as [|c line IH]; intros H.
  - simpl. destruct (split_lines rest) as [ls tl]. reflexivity.
  - simpl. rewrite IH by (intros Hin; apply H; right; exact Hin).
    destruct (Ascii.eqb_spec c newline) as [->|Hc]; [|reflexivity].
    exfalso. apply H. left. reflexivity.
Qed.

Lemma split_lines_app (body tail : gostring) :
  ~ In newline tail ->
  split_lines (body ++ tail)
  = (fst (split_lines body), snd (split_lines body) ++ tail).
Proof.
  intros H. induction body as [|c body IH].
  - simpl. apply split_lines_tail, H.
  - simpl. rewrite IH.
    destruct (split_lines body) as [ls tl]. simpl.
    destruct (Ascii.eqb c newline); [reflexivity|].
    destruct ls; reflexivity.
Qed.

Lemma lines_ReadString (buffered s rest : gostring) :
  ReadString buffered = (s, None, rest) -> lines buffered = s :: lines rest.
Proof.
  intros H. destruct (ReadString_line _ _ _ H) as [line [-> [Hline ->]]].
  unfold lines. rewrite <- app_assoc. simpl.
  rewrite split_lines_line by exact Hline. reflexivity.
Qed.

Lemma lines_EOF (buffered s rest : gostring) (e : error) :
  ReadString buffered = (s, Some e, rest) -> lines buffered = [].
Proof.
  intros H. destruct (ReadString_EOF _ _ _ _ H) as [_ [_ [_ Hin]]].
  unfold lines. rewrite split_lines_tail by exact Hin. reflexivity.
Qed.

Lemma iter_loop_lines (max : Z) (buffered : gostring) (start : Z) :
  iter_loop max buffered start = iter_lines max (lines buffered) start.
Proof.
  remember (length buffered) as n eqn:Hn.
  revert buffered start Hn.
  induction n as [n IH] using lt_wf_ind. intros buffered start Hn.
  rewrite iter_loop_eq.
  destruct (ReadString buffered) as [[s [e|]] rest] eqn:E.
  - rewrite (lines_EOF _ _ _ _ E). simpl. destruct (_ || _); reflexivity.
  - rewrite (lines_ReadString _ _ _ E). simpl.
    assert (Hlt : (length rest < n)%nat).
    { destruct (ReadString_line _ _ _ E) as [line [-> [_ ->]]].
      subst n. rewrite !length_app. simpl. lia. }
    rewrite !(IH _ Hlt rest _ eq_refl). reflexivity.
Qed.

Lemma sends_iter_lines_unbounded (max : Z) (ls : list gostring) (start : Z) :
  max < 0 ->
  sends (iter_lines max ls start)
  = map (fun s => Trim s cutset) (List.filter envelope ls).
Proof.
  intros Hmax. revert start.
  induction ls as [|s ls IH]; intros start; [reflexivity|].
  simpl. replace (max <? 0) with true by (symmetry; apply Z.ltb_lt; exact Hmax).
  simpl. destruct (envelope s); simpl; rewrite IH; reflexivity.
Qed.

Lemma sends_iter_lines_bounded (max : Z) (ls : list gostring) (start : Z) :
  0 <= max <= maxInt ->
  0 <= start <= max ->
  sends (iter_lines max ls start)
  = map (fun s => Trim s cutset)
      (firstn (Z.to_nat (max - start)) (List.filter envelope ls)).
Proof.
  intros Hmax. revert start.
  induction ls as [|s ls IH]; intros start Hstart.
  - simpl. rewrite firstn_nil. reflexivity.
  - simpl. replace (max <? 0) with false by (symmetry; apply Z.ltb_ge; lia).
    simpl. destruct (Z.ltb_spec start max) as [Hlt|Hge].
    + destruct (envelope s); simpl.
      * assert (Hint : int_add start 1 = start + 1).
        { apply int_in_range. unfold in_int, minInt, maxInt, intSize in *. simpl in *. lia. }
        rewrite Hint, IH by lia.
        replace (Z.to_nat (max - start)) with (S (Z.to_nat (max - (start + 1)))) by lia.
        reflexivity.
      * apply IH. exact Hstart.
    + replace (max - start) with 0 by lia. reflexivity.
Qed.

(** C5: the producer sends, in order and unwrapped, the lines that pass the
    envelope test; a line that fails it is left out and takes nothing from
    the limit. With a negative [max] every such line of the source is sent,
    otherwise the first [max] of them, or all of them when the source has
    fewer. *)
Theorem iter_sends_accepted_lines (source : gostring) (max : Z) :
  in_int max ->
  sends (iter source max)
  = map (fun s => Trim s cutset)
      (if max <? 0 then List.filter envelope (lines source)
       else firstn (Z.to_nat max) (List.filter envelope (lines source))).
Proof.
  intros Hmax. unfold iter. rewrite iter_loop_lines.
  destruct (Z.ltb_spec max 0) as [Hneg|Hpos].
  - apply sends_iter_lines_unbounded, Hneg.
  - rewrite sends_iter_lines_bounded.
    + rewrite Z.sub_0_r. reflexivity.
    + unfold in_int in Hmax. lia.
    + lia.
Qed.

Lemma iter_sends_accepted_lines_witness :
  sends (iter four_lines 2) = [str "http://a"; str "http://b"].
Proof.
  rewrite (iter_sends_accepted_lines four_lines 2); [reflexivity|].
  unfold in_int. vm_compute. split; discriminate.
Defined.

(** C10: bytes after the last line feed of the input are never sent: the
    producer does on the input what it does on the input without them, be
    they an envelope or not, and on an input without any line feed it does
    nothing at all. *)
Theorem iter_drops_unterminated_line (body tail : gostring) (max : Z) :
  ~ In newline tail ->
  iter (body ++ tail) max = iter body max /\ iter tail max = [].
Proof.
  intros H. unfold iter. rewrite !iter_loop_lines. unfold lines.
  rewrite split_lines_app by exact H.
  rewrite (split_lines_tail tail H). split; reflexivity.
Qed.

Lemma iter_drops_unterminated_line_witness :
  iter (four_lines ++ str "{" ++ [quote] ++ str "http://d" ++ [quote] ++ str "}") (-1)
  = iter four_lines (-1).
Proof.
  refine (proj1 (iter_drops_unterminated_line four_lines
                   (str "{" ++ [quote] ++ str "http://d" ++ [quote] ++ str "}") (-1) _)).
  vm_compute. intros H. repeat (destruct H as [H|H]; [discriminate|]). exact H.
Defined.

(** *** Trimming *)

Lemma inCutset_In (cs : gostring) (c : ascii) : inCutset cs c = true <-> In c cs.
Proof.
  unfold inCutset. rewrite existsb_exists. split.
  - intros [x [Hx Heq]]. apply Ascii.eqb_eq in Heq. subst. exact Hx.
  - intros H. exists c. split; [exact H | apply Ascii.eqb_refl].
Qed.

Lemma inCutset_wrapping (c : ascii) :
  c <> newline -> inCutset cutset c = inCutset wrapping c.
Proof.
  intros H. unfold inCutset, cutset, wrapping. simpl.
  destruct (Ascii.eqb_spec c newline) as [->|_]; [congruence|].
  reflexivity.
Qed.

Lemma trimLeftASCII_ext (s cs1 cs2 : gostring) :
  (forall c, In c s -> inCutset cs1 c = inCutset cs2 c) ->
  trimLeftASCII s cs1 = trimLeftASCII s cs2.
Proof.
  induction s as [|c s IH]; intros H; [reflexivity|].
  simpl. rewrite <- (H c) by (left; reflexivity).
  destruct (inCutset cs1 c); [|reflexivity].
  apply IH. intros x Hx. apply H. right. exact Hx.
Qed.

Lemma trimLeftASCII_split (s cs : gostring) :
  exists before,
    s = before ++ trimLeftASCII s cs /\ Forall (fun c => In c cs) before.
Proof.
  induction s as [|c s [before [Hs Hb]]].
  - exists []. split; [reflexivity | constructor].
  - simpl. destruct (inCutset cs c) eqn:E.
    + exists (c :: before). split.
      * simpl. f_equal. exact Hs.
      * constructor; [apply inCutset_In, E | exact Hb].
    + exists []. split; [reflexivity | constructor].
Qed.

Lemma trimLeftASCII_head (s cs : gostring) (c : ascii) (t : gostring) :
  trimLeftASCII s cs = c :: t -> ~ In c cs.
Proof.
  induction s as [|x s IH]; simpl; [discriminate|].
  destruct (inCutset cs x) eqn:E; [exact IH|].
  intros H Hin. inversion H; subst.
  apply inCutset_In in Hin. congruence.
Qed.

Lemma trimRightASCII_split (s cs : gostring) :
  exists after,
    s = trimRightASCII s cs ++ after /\ Forall (fun c => In c cs) after.
Proof.
  unfold trimRightASCII.
  destruct (trimLeftASCII_split (rev s) cs) as [before [Hs Hb]].
  exists (rev before). split.
  - rewrite <- rev_app_distr, <- Hs, rev_involutive. reflexivity.
  - apply List.Forall_forall. intros c Hc. apply in_rev in Hc.
    rewrite List.Forall_forall in Hb. apply Hb, Hc.
Qed.

Lemma trimRightASCII_last (s cs : gostring) (c : ascii) (t : gostring) :
  trimRightASCII s cs = t ++ [c] -> ~ In c cs.
Proof.
  unfold trimRightASCII. intros H.
  apply (f_equal (@rev ascii)) in H.
  rewrite rev_involutive, rev_app_distr in H. simpl in H.
  exact (trimLeftASCII_head _ _ _ _ H).
Qed.

Lemma trimRightASCII_ext (s cs1 cs2 : gostring) :
  (forall c, In c s -> inCutset cs1 c = inCutset cs2 c) ->
  trimRightASCII s cs1 = trimRightASCII s cs2.
Proof.
  intros H. unfold trimRightASCII. f_equal.
  apply trimLeftASCII_ext. intros c Hc. apply H, in_rev, Hc.
Qed.

(** The cutset of [iter] on a line with its line feed does what the four
    bytes of the wrapping do on the line without it. *)
Lemma Trim_line (line : gostring) :
  ~ In newline line -> Trim (line ++ [newline]) cutset = Trim line wrapping.
Proof.
  intros Hline.
  assert (Hext : forall c, In c line -> inCutset cutset c = inCutset wrapping c).
  { intros c Hc. apply inCutset_wrapping. intros ->. exact (Hline Hc). }
  assert (Hright : trimRightASCII (line ++ [newline]) cutset = trimRightASCII line wrapping).
  { unfold trimRightASCII. rewrite rev_app_distr. simpl.
    f_equal. apply trimLeftASCII_ext. intros c Hc. apply Hext, in_rev, Hc. }
  unfold Trim. rewrite Hright.
  apply trimLeftASCII_ext. intros c Hc. apply Hext.
  destruct (trimRightASCII_split line wrapping) as [after [Hs _]].
  rewrite Hs. apply in_or_app. left. exact Hc.
Qed.

Lemma Trim_split (s cs : gostring) :
  exists before after,
    s = before ++ Trim s cs ++ after
    /\ Forall (fun c => In c cs) before /\ Forall (fun c => In c cs) after
    /\ (forall c t, Trim s cs = c :: t -> ~ In c cs)
    /\ (forall c t, Trim s cs = t ++ [c] -> ~ In c cs).
Proof.
  destruct (trimRightASCII_split s cs) as [after [Hs Ha]].
  destruct (trimLeftASCII_split (trimRightASCII s cs) cs) as [before [Hr Hb]].
  exists before, after. unfold Trim. repeat split.
  - rewrite app_assoc, <- Hr. exact Hs.
  - exact Hb.
  - exact Ha.
  - intros c t. apply trimLeftASCII_head.
  - intros c t H. rewrite H in Hr.
    rewrite app_assoc in Hr. exact (trimRightASCII_last _ _ _ _ Hr).
Qed.

(** C6: when a line passes the envelope test, what the producer sends is
    the line with exactly the four bytes brace, double quote, space and
    brace taken off at both ends, and no other byte removed. The line is
    what [ReadString] returned without the line feed that ends it, its only
    one, which the cutset of [strings.Trim] takes off with them: the line
    is some of these four bytes, then what is sent, then some of these four
    bytes; and what is sent neither starts nor ends with a brace, a double
    quote, a space or a line feed. *)
Theorem iter_unwraps_line (max : Z) (buffered : gostring) (start : Z) (s rest : gostring) :
  (max <? 0) || (start <? max) = true ->
  ReadString buffered = (s, None, rest) ->
  envelope s = true ->
  exists line cleansed before after,
    s = line ++ [newline] /\ ~ In newline line
    /\ iter_loop max buffered start
       = iterSend cleansed :: iter_loop max rest (int_add start 1)
    /\ cleansed = Trim s cutset
    /\ cleansed = Trim line wrapping
    /\ s = before ++ cleansed ++ after ++ [newline]
    /\ Forall (fun c => In c wrapping) before
    /\ Forall (fun c => In c wrapping) after
    /\ (forall c t, cleansed = c :: t -> ~ In c cutset)
    /\ (forall c t, cleansed = t ++ [c] -> ~ In c cutset).
Proof.
  intros Hcond Hread Henv.
  destruct (ReadString_line _ _ _ Hread) as [line [Hs [Hline _]]].
  destruct (Trim_split line wrapping) as [before [after [H1 [H2 [H3 _]]]]].
  destruct (Trim_split s cutset) as [_ [_ [_ [_ [_ [H4 H5]]]]]].
  assert (Heq : Trim s cutset = Trim line wrapping).
  { rewrite Hs. apply Trim_line, Hline. }
  exists line, (Trim s cutset), before, after.
  split; [exact Hs|]. split; [exact Hline|].
  split; [rewrite iter_loop_eq, Hcond, Hread, Henv; reflexivity|].
  split; [reflexivity|]. split; [exact Heq|].
  split; [rewrite Heq, Hs, H1 at 1; rewrite <- !app_assoc; reflexivity|].
  split; [exact H2|]. split; [exact H3|]. split; assumption.
Qed.

Lemma iter_unwraps_line_witness :
  exists line cleansed before after,
    one_line = line ++ [newline] /\ ~ In newline line
    /\ iter_loop (-1) one_line 0 = iterSend cleansed :: iter_loop (-1) [] (int_add 0 1)
    /\ cleansed = Trim one_line cutset
    /\ cleansed = Trim line wrapping
    /\ one_line = before ++ cleansed ++ after ++ [newline]
    /\ Forall (fun c => In c wrapping) before
    /\ Forall (fun c => In c wrapping) after
    /\ (forall c t, cleansed = c :: t -> ~ In c cutset)
    /\ (forall c t, cleansed = t ++ [c] -> ~ In c cutset).
Proof.
  apply (iter_unwraps_line (-1) one_line 0); reflexivity.
Defined.

Example iter_crlf :
  sends (iter one_line (-1)) = [str "http://a" ++ [quote] ++ str "}" ++ [byte 13]].
Proof. reflexivity. Qed.

(** ** The dispatch loop (claims C3 and C4) *)

Section Dispatch.

Variable url_Parse : gostring -> URL + error.

Lemma main_loop_cons (line : gostring) (ls : list gostring)
    (d : gmap gostring bool) (k : Z) :
  main_loop url_Parse (line :: ls) d k
  = match d !! line with
    | Some _ => main_loop url_Parse ls d (int_add k 1)
    | None =>
        match url_Parse line with
        | inr _ => main_loop url_Parse ls d (int_add k 1)
        | inl u => (line, u) :: main_loop url_Parse ls (<[line := true]> d) (int_add k 1)
        end
    end.
Proof.
  simpl. unfold main_round.
  destruct (d !! line); [reflexivity|].
  destruct (url_Parse line); reflexivity.
Qed.

(** A line that is in [duplicates] is never dispatched again. *)
Lemma main_loop_seen (line : gostring) (ls : list gostring)
    (d : gmap gostring bool) (k : Z) :
  is_Some (d !! line) ->
  filter (fun p => p.1 = line) (main_loop url_Parse ls d k) = [].
Proof.
  revert d k. induction ls as [|l ls IH]; intros d k Hd; [reflexivity|].
  rewrite main_loop_cons.
  destruct (d !! l) eqn:El; [apply IH, Hd|].
  destruct (url_Parse l) as [u|e]; [|apply IH, Hd].
  rewrite filter_cons_False.
  - apply IH. destruct (decide (l = line)) as [->|Hne].
    + rewrite lookup_insert_eq. eauto.
    + rewrite lookup_insert_ne by exact Hne. exact Hd.
  - simpl. intros ->. destruct Hd as [b Hb]. congruence.
Qed.

Lemma main_loop_first (line : gostring) (u : URL) (ls : list gostring)
    (d : gmap gostring bool) (k : Z) :
  d !! line = None ->
  url_Parse line = inl u ->
  In line ls ->
  filter (fun p => p.1 = line) (main_loop url_Parse ls d k) = [(line, u)].
Proof.
  intros Hd Hu. revert d k Hd.
  induction ls as [|l ls IH]; intros d k Hd Hin; [destruct Hin|].
  rewrite main_loop_cons.
  destruct (decide (l = line)) as [->|Hne].
  - rewrite Hd, Hu. rewrite filter_cons_True by reflexivity.
    f_equal. apply main_loop_seen. rewrite lookup_insert_eq. eauto.
  - assert (Hin' : In line ls) by (destruct Hin; [contradiction | assumption]).
    destruct (d !! l) eqn:El; [apply IH; assumption|].
    destruct (url_Parse l) as [u'|e]; [|apply IH; assumption].
    rewrite filter_cons_False by (simpl; exact Hne).
    apply IH; [|exact Hin'].
    rewrite lookup_insert_ne by exact Hne. exact Hd.
Qed.

(** C3: whatever the input, a locator that [iter] sends, once or several
    times, and that parses as a URL is dispatched exactly once, with that
    URL: every later occurrence finds it in [duplicates] and starts no
    fetcher. *)
Theorem duplicate_lines_dispatched_once
    (source : gostring) (max : Z) (line : gostring) (u : URL) :
  In line (sends (iter source max)) ->
  url_Parse line = inl u ->
  filter (fun p => p.1 = line) (main_loop url_Parse (sends (iter source max)) ∅ 0)
  = [(line, u)].
Proof.
  intros Hin Hu. apply main_loop_first; [apply lookup_empty | exact Hu | exact Hin].
Qed.

(** *** The number of fetchers *)

Lemma main_loop_elem (x : gostring) (ls : list gostring)
    (d : gmap gostring bool) (k : Z) :
  x ∈ (main_loop url_Parse ls d k).*1
  <-> x ∈ ls /\ parses url_Parse x = true /\ d !! x = None.
Proof.
  revert d k. induction ls as [|l ls IH]; intros d k.
  - simpl. split; [intros H; inversion H | intros [H _]; inversion H].
  - rewrite main_loop_cons. unfold parses in *.
    destruct (d !! l) eqn:El; [|destruct (url_Parse l) as [u|e] eqn:Eu].
    + rewrite IH, elem_of_cons. split; [tauto|].
      intros [[->|H] [H1 H2]]; [congruence | tauto].
    + rewrite fmap_cons, elem_of_cons, IH, elem_of_cons. simpl. split.
      * intros [->|[H1 [H2 H3]]].
        -- rewrite Eu. tauto.
        -- repeat split; [tauto | exact H2 |].
           destruct (decide (l = x)) as [->|Hne]; [exact El|].
           rewrite lookup_insert_ne in H3 by exact Hne. exact H3.
      * intros [[->|H1] [H2 H3]]; [left; reflexivity|].
        destruct (decide (x = l)) as [->|Hne]; [left; reflexivity|].
        right. repeat split; [exact H1 | exact H2 |].
        rewrite lookup_insert_ne by congruence. exact H3.
    + rewrite IH, elem_of_cons. split; [tauto|].
      intros [[->|H] [H1 H2]]; [|tauto].
      rewrite Eu in H1. discriminate.
Qed.

Lemma main_loop_NoDup (ls : list gostring) (d : gmap gostring bool) (k : Z) :
  NoDup (main_loop url_Parse ls d k).*1.
Proof.
  revert d k. induction ls as [|l ls IH]; intros d k; [constructor|].
  rewrite main_loop_cons.
  destruct (d !! l) eqn:El; [apply IH|].
  destruct (url_Parse l) as [u|e]; [|apply IH].
  rewrite fmap_cons. simpl. constructor; [|apply IH].
  rewrite main_loop_elem. intros [_ [_ H]].
  rewrite lookup_insert_eq in H. discriminate.
Qed.

(** The fetchers started are as many as the distinct lines that parse. *)
Lemma main_loop_length (ls : list gostring) :
  length (main_loop url_Parse ls ∅ 0)
  = length (remove_dups (List.filter (parses url_Parse) ls)).
Proof.
  rewrite <- (length_fmap fst).
  apply Permutation_length, NoDup_Permutation.
  - apply main_loop_NoDup.
  - apply NoDup_remove_dups.
  - intros x. rewrite main_loop_elem, elem_of_remove_dups.
    rewrite !list_elem_of_In, filter_In, lookup_empty. tauto.
Qed.

Lemma main_loop_length_le (ls : list gostring) (d : gmap gostring bool) (k : Z) :
  (length (main_loop url_Parse ls d k) <= length ls)%nat.
Proof.
  revert d k. induction ls as [|l ls IH]; intros d k; [reflexivity|].
  rewrite main_loop_cons.
  destruct (d !! l); [|destruct (url_Parse l)]; simpl;
    try (etransitivity; [apply IH | lia]).
  apply le_n_S, IH.
Qed.

End Dispatch.

(** ** Fetchers, counted *)

Lemma weigh_app (w : fetcher -> nat) (fs gs : list fetcher) :
  weigh w (fs ++ gs) = (weigh w fs + weigh w gs)%nat.
Proof. unfold weigh. rewrite map_app, list_sum_app. reflexivity. Qed.

Lemma weigh_insert (w : fetcher -> nat) (fs : list fetcher) (i : nat) (f f' : fetcher) :
  fs !! i = Some f ->
  (weigh w (<[i := f']> fs) + w f = weigh w fs + w f')%nat.
Proof.
  revert i. induction fs as [|g fs IH]; intros i H; [discriminate|].
  destruct i as [|i]; simpl in *.
  - inversion H; subst. unfold weigh. simpl. lia.
  - specialize (IH i H). unfold weigh in *. simpl. lia.
Qed.

Lemma tally_exists (p : fetcher -> bool) (fs : list fetcher) :
  (0 < tally p fs)%nat -> exists i f, fs !! i = Some f /\ p f = true.
Proof.
  induction fs as [|g fs IH]; unfold tally, weigh; simpl; [lia|].
  intros H. destruct (p g) eqn:E.
  - exists O, g. split; [reflexivity | exact E].
  - destruct IH as [i [f [Hi Hf]]]; [exact H|].
    exists (S i), f. split; assumption.
Qed.

Lemma tally_lookup (p : fetcher -> bool) (fs : list fetcher) (i : nat) (f : fetcher) :
  fs !! i = Some f -> p f = true -> (0 < tally p fs)%nat.
Proof.
  revert i. induction fs as [|g fs IH]; intros i H Hp; [discriminate|].
  unfold tally, weigh in *. destruct i as [|i]; simpl in *.
  - inversion H; subst. rewrite Hp. lia.
  - specialize (IH i H Hp). lia.
Qed.

Lemma tally_le_length (p : fetcher -> bool) (fs : list fetcher) :
  (tally p fs <= length fs)%nat.
Proof.
  induction fs as [|g fs IH]; unfold tally, weigh in *; simpl; [lia|].
  destruct (p g); lia.
Qed.

(** When no fetcher is pending, every result is sent and no client is held. *)
Lemma tally_all_done (fs : list fetcher) :
  tally pending fs = O ->
  tally past_send fs = length fs /\ tally holds_client fs = O.
Proof.
  induction fs as [|g fs IH]; unfold tally, weigh in *; simpl; [split; reflexivity|].
  intros H. destruct g; simpl in *; lia.
Qed.

(** ** The runs of the program *)

Lemma iter_lines_not_done (max : Z) (ls : list gostring) (start : Z) :
  Forall (fun e => match e with iterPrintf t => is_done t = false | iterSend _ => True end)
    (iter_lines max ls start).
Proof.
  revert start. induction ls as [|l ls IH]; intros start; simpl; [constructor|].
  destruct (_ || _); [|constructor].
  destruct (envelope l); constructor; try apply IH; reflexivity.
Qed.

Lemma sends_length (events : list iter_event) :
  (length (sends events) <= length events)%nat.
Proof.
  induction events as [|[t|c] events IH]; simpl; lia.
Qed.

Lemma iter_lines_length (max : Z) (ls : list gostring) (start : Z) :
  (length (iter_lines max ls start) <= length ls)%nat.
Proof.
  revert start. induction ls as [|l ls IH]; intros start; simpl; [lia|].
  destruct (_ || _); [|simpl; lia].
  destruct (envelope l); simpl; apply le_n_S, IH.
Qed.

Lemma split_lines_length (source : gostring) :
  (length (fst (split_lines source)) <= length source)%nat.
Proof.
  induction source as [|c source IH]; simpl; [lia|].
  destruct (split_lines source) as [ls tl]. simpl in *.
  destruct (Ascii.eqb c newline); [simpl; lia|].
  destruct ls; simpl in *; lia.
Qed.

(** The producer sends at most as many locators as the source has bytes. *)
Lemma iter_sends_length (source : gostring) (max : Z) :
  (length (sends (iter source max)) <= length source)%nat.
Proof.
  unfold iter. rewrite iter_loop_lines.
  etransitivity; [apply sends_length|].
  etransitivity; [apply iter_lines_length|].
  apply split_lines_length.
Qed.

Section Runs.

Variable url_Parse : gostring -> URL + error.
Variable stats_Quartile : list float64 -> Quartiles * option error.
Variable stats_Percentile : list float64 -> float64 -> float64 * option error.
Variable options : cliOptions.
Variable source : gostring.

Let capacity : nat := Z.to_nat (concurrency options).

Let Step := step url_Parse stats_Quartile stats_Percentile capacity.
Let Reachable := reachable url_Parse stats_Quartile stats_Percentile options source.
Let Inv := invariant url_Parse stats_Quartile stats_Percentile options source.

Lemma invariant_start (s : state) :
  main_start options source = Some s -> Inv s.
Proof.
  unfold main_start. destruct (concurrency options <=? 0) eqn:E; [discriminate|].
  intros H. inversion H; subst; clear H.
  constructor; simpl.
  - unfold held, tally, weigh. simpl. rewrite length_seq. unfold capacity. lia.
  - reflexivity.
  - exists []. repeat split.
  - reflexivity.
  - discriminate.
  - unfold iter. rewrite iter_loop_lines. apply iter_lines_not_done.
  - reflexivity.
Qed.

Lemma main_round_not_done (d : gmap gostring bool) (k : Z) (line : gostring)
    d' k' t spawn :
  main_round url_Parse d k line = (d', k', t, spawn) -> is_done t = false.
Proof.
  unfold main_round. destruct (d !! line); [|destruct (url_Parse line)];
    intros H; inversion H; subst; reflexivity.
Qed.

Lemma main_loop_round (d : gmap gostring bool) (k : Z) (line : gostring)
    (ls : list gostring) d' k' t spawn :
  main_round url_Parse d k line = (d', k', t, spawn) ->
  length (main_loop url_Parse (line :: ls) d k)
  = (match spawn with Some _ => 1 | None => 0 end
     + length (main_loop url_Parse ls d' k'))%nat.
Proof.
  intros H. simpl. rewrite H. destruct spawn; reflexivity.
Qed.

Lemma filter_is_done_app (l1 l2 : list text) :
  List.filter is_done l1 = [] -> List.filter is_done l2 = [] ->
  List.filter is_done (l1 ++ l2) = [].
Proof. intros H1 H2. rewrite List.filter_app, H1, H2. reflexivity. Qed.

Lemma invariant_step (s s' : state) :
  Step s s' -> Inv s -> Inv s'.
Proof.
  intros Hstep [Hc Hw [folded [Hr [Hl Hrec]]] Hd He Hp Hpr].
  unfold held, Step in *.
  destruct Hstep as
    [ s t p Hprod | s c p Hprod Hroom
    | s line o d' k' t spawn Hpc Hout Hround | s Hpc Hout Hprod
    | s i resource client q Hi Hq | s i resource client got Hi Hin
    | s i client Hi Hroom | s i Hi | s raven Hin | s Hpc Hwg0 Hin ].
  - (* iter prints *)
    assert (Hpc : pc s = mainLoop).
    { destruct (pc s); [reflexivity | | ]; destruct Hd as [Hd _]; congruence. }
    rewrite Hprod in Hp, Hd. rewrite Hpc in Hd, Hpr, Hr.
    inversion Hp as [|? ? Ht Hp']; subst.
    constructor; unfold held, after_iter_printf, after_iter_send; simpl; rewrite ?Hpc;
      try assumption; try discriminate.
    + exists folded. auto.
    + apply filter_is_done_app; [exact Hpr | simpl; rewrite Ht; reflexivity].
  - (* iter sends *)
    assert (Hpc : pc s = mainLoop).
    { destruct (pc s); [reflexivity | | ]; destruct Hd as [Hd _]; congruence. }
    rewrite Hprod in Hp, Hd. rewrite Hpc in Hd, Hpr, Hr.
    inversion Hp as [|? ? Ht Hp']; subst.
    constructor; unfold held, after_iter_printf, after_iter_send; simpl; rewrite ?Hpc;
      try assumption; try discriminate.
    + exists folded. auto.
    + rewrite <- app_assoc. exact Hd.
  - (* main: one round *)
    rewrite Hpc in Hd, Hpr, Hr. rewrite Hout, <- app_comm_cons in Hd.
    rewrite (main_loop_round _ _ _ _ _ _ _ _ Hround) in Hd.
    constructor;
      unfold held, after_main_round, after_main_closed, after_aggregate, after_main_done;
      simpl; try assumption.
    + destruct spawn; [|exact Hc].
      unfold tally in *. rewrite weigh_app. unfold weigh at 2. simpl. lia.
    + destruct spawn; [|exact Hw].
      unfold tally in *. rewrite weigh_app. unfold weigh at 2. simpl. lia.
    + exists folded. repeat split; try assumption.
      destruct spawn; [|exact Hl].
      unfold tally in *. rewrite weigh_app. unfold weigh at 2. simpl. lia.
    + destruct spawn; [rewrite length_app; simpl|]; lia.
    + discriminate.
    + apply filter_is_done_app; [exact Hpr|].
      simpl. rewrite (main_round_not_done _ _ _ _ _ _ _ Hround). reflexivity.
  - (* main: the loop ends *)
    rewrite Hpc in Hd, Hpr, Hr. rewrite Hout, Hprod in Hd. simpl in Hd.
    constructor;
      unfold held, after_main_round, after_main_closed, after_aggregate, after_main_done;
      simpl; try assumption.
    + exists folded. auto.
    + repeat split; try assumption. lia.
    + discriminate.
  - (* fetch takes a client *)
    pose proof (weigh_insert (fun f => if holds_client f then 1%nat else O) _ _ _
                  (fetcherGet resource client) Hi) as T1.
    pose proof (weigh_insert (fun f => if pending f then 1%nat else O) _ _ _
                  (fetcherGet resource client) Hi) as T2.
    pose proof (weigh_insert (fun f => if past_send f then 1%nat else O) _ _ _
                  (fetcherGet resource client) Hi) as T3.
    simpl in T1, T2, T3. rewrite Hq in Hc. simpl in Hc.
    constructor; unfold held, after_fetch, tally in *; simpl;
      rewrite ?length_insert; try assumption; try lia.
    exists folded. repeat split; try assumption. lia.
  - (* fetch sends its result *)
    pose proof (weigh_insert (fun f => if holds_client f then 1%nat else O) _ _ _
                  (fetcherSent client) Hi) as T1.
    pose proof (weigh_insert (fun f => if pending f then 1%nat else O) _ _ _
                  (fetcherSent client) Hi) as T2.
    pose proof (weigh_insert (fun f => if past_send f then 1%nat else O) _ _ _
                  (fetcherSent client) Hi) as T3.
    simpl in T1, T2, T3. rewrite Hin in Hl.
    assert (Hpc : pc s <> mainExit).
    { intros E. destruct (He E) as [E0 _]. rewrite Hw in E0.
      pose proof (tally_lookup pending _ _ _ Hi eq_refl) as X. lia. }
    constructor; unfold held, after_fetch, tally in *; simpl;
      rewrite ?length_insert; try assumption; try lia.
    + exists folded. repeat split; try assumption. lia.
    + intros E. contradiction.
  - (* fetch gives the client back *)
    pose proof (weigh_insert (fun f => if holds_client f then 1%nat else O) _ _ _
                  fetcherReleased Hi) as T1.
    pose proof (weigh_insert (fun f => if pending f then 1%nat else O) _ _ _
                  fetcherReleased Hi) as T2.
    pose proof (weigh_insert (fun f => if past_send f then 1%nat else O) _ _ _
                  fetcherReleased Hi) as T3.
    simpl in T1, T2, T3.
    constructor; unfold held, after_fetch, tally in *; simpl;
      rewrite ?length_insert, ?length_app; simpl; try assumption; try lia.
    exists folded. repeat split; try assumption. lia.
  - (* fetch is done *)
    pose proof (weigh_insert (fun f => if holds_client f then 1%nat else O) _ _ _
                  fetcherDone Hi) as T1.
    pose proof (weigh_insert (fun f => if pending f then 1%nat else O) _ _ _
                  fetcherDone Hi) as T2.
    pose proof (weigh_insert (fun f => if past_send f then 1%nat else O) _ _ _
                  fetcherDone Hi) as T3.
    simpl in T1, T2, T3.
    constructor; unfold held, after_fetch, tally in *; simpl;
      rewrite ?length_insert; try assumption; try lia.
    + exists folded. repeat split; try assumption. lia.
    + intros E. destruct (He E) as [E0 E1]. split; [lia | exact E1].
  - (* the aggregator folds a result *)
    assert (Hpc : pc s <> mainExit).
    { intros E. destruct (He E) as [_ E1]. congruence. }
    rewrite Hin in Hl.
    constructor;
      unfold held, after_main_round, after_main_closed, after_aggregate, after_main_done;
      simpl; try assumption.
    + exists (folded ++ [raven]). rewrite drain_snoc, length_app. simpl.
      repeat split.
      * rewrite Hr. destruct (pc s); [reflexivity | reflexivity | contradiction].
      * lia.
      * rewrite Hrec, int_add_int. f_equal. lia.
    + intros E. contradiction.
    + destruct (pc s); [ | | contradiction];
        (apply filter_is_done_app; [exact Hpr | reflexivity]).
  - (* main prints the summary *)
    rewrite Hpc in Hd, Hpr, Hr. rewrite Hin in Hl.
    constructor;
      unfold held, after_main_round, after_main_closed, after_aggregate, after_main_done;
      simpl; try assumption.
    + exists folded. rewrite Hr. auto.
    + auto.
    + exists (printed s). split; [reflexivity | exact Hpr].
Qed.

Lemma invariant_reachable (s : state) : Reachable s -> Inv s.
Proof.
  induction 1 as [s H | s s' _ IH Hstep].
  - apply invariant_start, H.
  - exact (invariant_step _ _ Hstep IH).
Qed.

(** Every step takes the state closer to the end. *)
Lemma step_measure (s s' : state) : Step s s' -> (measure s' < measure s)%nat.
Proof.
  unfold Step. intros Hstep.
  destruct Hstep as
    [ s t p Hprod | s c p Hprod Hroom
    | s line o d' k' t spawn Hpc Hout Hround | s Hpc Hout Hprod
    | s i resource client q Hi Hq | s i resource client got Hi Hin
    | s i client Hi Hroom | s i Hi | s raven Hin | s Hpc Hwg0 Hin ];
    unfold measure, after_iter_printf, after_iter_send, after_main_round, after_main_closed, after_fetch, after_aggregate, after_main_done; simpl;
    rewrite ?Hprod, ?Hout, ?Hpc, ?Hin, ?length_app; simpl.
  - lia.
  - lia.
  - destruct spawn; [rewrite weigh_app; unfold weigh at 2; simpl|]; lia.
  - lia.
  - pose proof (weigh_insert fetcher_weight _ _ _ (fetcherGet resource client) Hi) as T.
    simpl in T. lia.
  - pose proof (weigh_insert fetcher_weight _ _ _ (fetcherSent client) Hi) as T.
    simpl in T. lia.
  - pose proof (weigh_insert fetcher_weight _ _ _ fetcherReleased Hi) as T.
    simpl in T. lia.
  - pose proof (weigh_insert fetcher_weight _ _ _ fetcherDone Hi) as T.
    simpl in T. lia.
  - lia.
  - lia.
Qed.

(** A fetcher that is not done can take a step, or another one can. *)
Lemma fetcher_progress (s : state) :
  Inv s -> (0 < capacity)%nat -> inbox s = None ->
  (0 < tally pending (fetchers s))%nat ->
  exists s', Step s s'.
Proof.
  intros Hinv Hcap Hin Hpos. unfold Step.
  destruct (tally_exists _ _ Hpos) as [i [f [Hi Hf]]].
  assert (Hholder : forall j resource client,
             fetchers s !! j = Some (fetcherGet resource client) ->
             exists s', step url_Parse stats_Quartile stats_Percentile capacity s s').
  { intros j resource client Hj. eexists.
    exact (step_fetch_send _ _ _ _ s j resource client (inr io_EOF) Hj Hin). }
  assert (Hsent : forall j client,
             fetchers s !! j = Some (fetcherSent client) ->
             exists s', step url_Parse stats_Quartile stats_Percentile capacity s s').
  { intros j client Hj. eexists.
    apply (step_fetch_release _ _ _ _ s j client Hj).
    pose proof (inv_clients _ _ _ _ _ _ Hinv) as Hc. unfold held in Hc.
    pose proof (tally_lookup holds_client _ _ _ Hj eq_refl). lia. }
  destruct f as [resource | resource client | client | | ]; try discriminate.
  - destruct (queue s) as [|client q] eqn:Hq.
    + pose proof (inv_clients _ _ _ _ _ _ Hinv) as Hc. unfold held in Hc.
      rewrite Hq in Hc. simpl in Hc.
      destruct (tally_exists holds_client (fetchers s)) as [j [g [Hj Hg]]]; [lia|].
      destruct g; try discriminate; eauto.
    + eexists. exact (step_fetch_acquire _ _ _ _ s i resource client q Hi Hq).
  - eauto.
  - eauto.
  - eexists. exact (step_fetch_done _ _ _ _ s i Hi).
Qed.

(** The program cannot get stuck before [main] has printed the summary. *)
Lemma progress (s : state) :
  Inv s -> (0 < capacity)%nat -> pc s <> mainExit -> exists s', Step s s'.
Proof.
  intros Hinv Hcap Hpc. unfold Step.
  destruct (inbox s) as [raven|] eqn:Hin.
  { eexists. exact (step_aggregate _ _ _ _ s raven Hin). }
  destruct (pc s) eqn:Epc; [| |contradiction].
  - destruct (out s) as [|line o] eqn:Hout.
    + destruct (producer s) as [|[t|c] p] eqn:Hprod.
      * eexists. exact (step_main_closed _ _ _ _ s Epc Hout Hprod).
      * eexists. exact (step_iter_printf _ _ _ _ s t p Hprod).
      * eexists. apply (step_iter_send _ _ _ _ s c p Hprod).
        rewrite Hout. unfold out_capacity. simpl. lia.
    + destruct (main_round url_Parse (duplicates s) (leader s) line)
        as [[[d' k'] t] spawn] eqn:Hround.
      eexists. exact (step_main_round _ _ _ _ s line o d' k' t spawn Epc Hout Hround).
  - destruct (wg s) as [|n] eqn:Hwg.
    + eexists. exact (step_main_done _ _ _ _ s Epc Hwg Hin).
    + apply (fetcher_progress s Hinv Hcap Hin).
      rewrite <- (inv_wg _ _ _ _ _ _ Hinv), Hwg. lia.
Qed.

(** After the summary nothing happens any more. *)
Lemma exit_is_final (s s' : state) :
  Inv s -> pc s = mainExit -> ~ Step s s'.
Proof.
  intros Hinv Hpc Hstep. unfold Step in Hstep.
  pose proof (inv_dispatch _ _ _ _ _ _ Hinv) as Hd. rewrite Hpc in Hd.
  destruct Hd as [Hprod [Hout _]].
  destruct (inv_exit _ _ _ _ _ _ Hinv Hpc) as [Hwg Hin].
  pose proof (inv_wg _ _ _ _ _ _ Hinv) as Hw. rewrite Hwg in Hw.
  assert (Hnone : forall i f, fetchers s !! i = Some f -> pending f = true -> False).
  { intros i f Hi Hf. pose proof (tally_lookup pending _ _ _ Hi Hf). lia. }
  destruct Hstep; try congruence;
    match goal with H : fetchers _ !! _ = Some _ |- _ => exact (Hnone _ _ H eq_refl) end.
Qed.


Lemma exec_step (c : choice) (s s' : state) :
  exec url_Parse stats_Quartile stats_Percentile capacity c s = Some s' -> Step s s'.
Proof.
  unfold Step. destruct c as [ | | | i got]; simpl.
  - destruct (producer s) as [|[t|cleansed] p] eqn:Hprod; [discriminate | |].
    + intros H. inversion H; subst. exact (step_iter_printf _ _ _ _ s t p Hprod).
    + destruct (Nat.ltb_spec (length (out s)) out_capacity) as [Hlt|]; [|discriminate].
      intros H. inversion H; subst.
      exact (step_iter_send _ _ _ _ s cleansed p Hprod Hlt).
  - destruct (pc s) eqn:Hpc; [| |discriminate].
    + destruct (out s) as [|line o] eqn:Hout.
      * destruct (producer s) eqn:Hprod; [|discriminate].
        intros H. inversion H; subst.
        exact (step_main_closed _ _ _ _ s Hpc Hout Hprod).
      * destruct (main_round url_Parse (duplicates s) (leader s) line)
          as [[[d' k'] t] spawn] eqn:Hround.
        intros H. inversion H; subst.
        exact (step_main_round _ _ _ _ s line o d' k' t spawn Hpc Hout Hround).
    + destruct (wg s) eqn:Hwg; [|discriminate].
      destruct (inbox s) eqn:Hin; [discriminate|].
      intros H. inversion H; subst.
      exact (step_main_done _ _ _ _ s Hpc Hwg Hin).
  - destruct (inbox s) as [raven|] eqn:Hin; [|discriminate].
    intros H. inversion H; subst. exact (step_aggregate _ _ _ _ s raven Hin).
  - destruct (fetchers s !! i) as [[resource | resource client | client | | ]|] eqn:Hi;
      try discriminate.
    + destruct (queue s) as [|client q] eqn:Hq; [discriminate|].
      intros H. inversion H; subst.
      exact (step_fetch_acquire _ _ _ _ s i resource client q Hi Hq).
    + destruct (inbox s) eqn:Hin; [discriminate|].
      intros H. inversion H; subst.
      exact (step_fetch_send _ _ _ _ s i resource client got Hi Hin).
    + destruct (Nat.ltb_spec (length (queue s)) capacity) as [Hlt|]; [|discriminate].
      intros H. inversion H; subst.
      exact (step_fetch_release _ _ _ _ s i client Hi Hlt).
    + intros H. inversion H; subst. exact (step_fetch_done _ _ _ _ s i Hi).
Qed.

Lemma run_reachable (schedule : list choice) (s s' : state) :
  Reachable s ->
  run url_Parse stats_Quartile stats_Percentile capacity schedule s = Some s' ->
  Reachable s'.
Proof.
  revert s. induction schedule as [|c schedule IH]; simpl; intros s Hs H.
  - inversion H; subst. exact Hs.
  - destruct (exec url_Parse stats_Quartile stats_Percentile capacity c s) as [s1|] eqn:E;
      [|discriminate].
    apply (IH s1); [|exact H].
    exact (reachable_step _ _ _ _ _ s s1 Hs (exec_step _ _ _ E)).
Qed.

End Runs.

(** ** A run, step by step *)

Lemma not_found_run_reachable (s : state) :
  not_found_run = Some s ->
  reachable url_Parse_plain stats.Quartile stats.Percentile one_client one_locator s.
Proof.
  unfold not_found_run.
  destruct (main_start one_client one_locator) as [s0|] eqn:E; [|discriminate].
  intros H. eapply run_reachable; [apply reachable_start; exact E | exact H].
Qed.

(** ** The summary (claim C7) *)

Section Summary.

Variable stats_Quartile : list float64 -> Quartiles * option error.
Variable stats_Percentile : list float64 -> float64 -> float64 * option error.

(** The text of the summary: the nine fields and the listing of the
    ambiguous errors when the three calls of the statistics library
    succeed, and otherwise the first error they report. *)
Lemma flockMetrics_String_cases (m : flockMetrics) :
  (exists quarters ninefive ninenine,
      stats_Quartile (sizes m) = (quarters, None)
      /\ stats_Percentile (sizes m) (float64_of_int 99) = (ninenine, None)
      /\ stats_Percentile (sizes m) (float64_of_int 95) = (ninefive, None)
      /\ flockMetrics_String stats_Quartile stats_Percentile m
         = Join (summary_fields m quarters ninefive ninenine ++ ambiguous_listing m) " ")
  \/ (exists e,
         (snd (stats_Quartile (sizes m)) = Some e
          \/ snd (stats_Percentile (sizes m) (float64_of_int 99)) = Some e
          \/ snd (stats_Percentile (sizes m) (float64_of_int 95)) = Some e)
         /\ flockMetrics_String stats_Quartile stats_Percentile m = invalid_metrics e).
Proof.
  unfold flockMetrics_String.
  destruct (stats_Quartile (sizes m)) as [quarters [e|]] eqn:EQ.
  { right. exists e. split; [left; reflexivity | reflexivity]. }
  destruct (stats_Percentile (sizes m) (float64_of_int 99)) as [ninenine [e|]] eqn:E99.
  { right. exists e. split; [right; left; reflexivity | reflexivity]. }
  destruct (stats_Percentile (sizes m) (float64_of_int 95)) as [ninefive [e|]] eqn:E95.
  { right. exists e. split; [right; right; reflexivity | reflexivity]. }
  left. exists quarters, ninefive, ninenine. repeat split.
  unfold summary_fields, ambiguous_listing.
  destruct (ambiguous_errors m) as [|a l] eqn:EA; [reflexivity|].
  replace (Z.of_nat (length (a :: l)) >? 0) with true
    by (symmetry; apply Z.gtb_lt; simpl length; lia).
  reflexivity.
Qed.

End Summary.

(** C7, counterexample: the only fetch of a run fails with status 404. The
    run ends, no size was collected, [stats.Quartile] rejects the empty
    sample, and the line that is printed for the summary carries that error
    and none of the nine fields. *)
Lemma summary_without_fields_counterexample :
  exists s,
    reachable url_Parse_plain stats.Quartile stats.Percentile one_client one_locator s
    /\ pc s = mainExit
    /\ sizes (rollup s) = []
    /\ failed (rollup s) = count (rollup s)
    /\ last (printed s)
       = Some (Sprintf "done: %s\n" [opText (invalid_metrics stats.EmptyInputErr)])
    /\ forall quarters ninefive ninenine listing,
         flockMetrics_String stats.Quartile stats.Percentile (rollup s)
         <> Join (summary_fields (rollup s) quarters ninefive ninenine ++ listing) " ".
Proof.
  destruct not_found_run as [s|] eqn:E; [|vm_compute in E; discriminate].
  exists s. split; [exact (not_found_run_reachable s E)|].
  vm_compute in E. inversion E; subst; clear E.
  repeat split. intros quarters ninefive ninenine listing. vm_compute. discriminate.
Qed.

(** C7, amended: a run that starts, that is a run with a positive
    concurrency, always comes to its end, whatever the fetches return (it
    is taken that every [client.Get] returns): as long as [main] has not
    printed the summary some goroutine can take a step, and every step
    brings the end closer. No summary line is printed before the end; at
    the end, after which nothing happens, exactly one has been printed, as
    the last line. It carries count, max, min, average, quartiles, the 95th
    and 99th percentiles, failed and the number of ambiguous errors when
    [stats.Quartile] and [stats.Percentile] accept the sizes collected;
    when one of them reports an error, it carries that error instead. *)
Theorem run_ends_with_one_summary
    (url_Parse : gostring -> URL + error)
    (stats_Quartile : list float64 -> Quartiles * option error)
    (stats_Percentile : list float64 -> float64 -> float64 * option error)
    (options : cliOptions) (source : gostring) :
  0 < concurrency options ->
  let Reachable := reachable url_Parse stats_Quartile stats_Percentile options source in
  let Step := step url_Parse stats_Quartile stats_Percentile (Z.to_nat (concurrency options)) in
  (exists s, main_start options source = Some s)
  /\ (forall s, Reachable s -> pc s <> mainExit -> exists s', Step s s')
  /\ (forall s s', Reachable s -> Step s s' -> (measure s' < measure s)%nat)
  /\ (forall s, Reachable s -> pc s <> mainExit -> List.filter is_done (printed s) = [])
  /\ (forall s, Reachable s -> pc s = mainExit ->
        (forall s', ~ Step s s')
        /\ exists before summary,
             printed s = before ++ [Sprintf "done: %s\n" [opText summary]]
             /\ List.filter is_done before = []
             /\ summary = flockMetrics_String stats_Quartile stats_Percentile (rollup s)
             /\ ((exists quarters ninefive ninenine,
                     stats_Quartile (sizes (rollup s)) = (quarters, None)
                     /\ stats_Percentile (sizes (rollup s)) (float64_of_int 99) = (ninenine, None)
                     /\ stats_Percentile (sizes (rollup s)) (float64_of_int 95) = (ninefive, None)
                     /\ summary
                        = Join (summary_fields (rollup s) quarters ninefive ninenine
                                ++ ambiguous_listing (rollup s)) " ")
                 \/ (exists e,
                        (snd (stats_Quartile (sizes (rollup s))) = Some e
                         \/ snd (stats_Percentile (sizes (rollup s)) (float64_of_int 99)) = Some e
                         \/ snd (stats_Percentile (sizes (rollup s)) (float64_of_int 95)) = Some e)
                        /\ summary = invalid_metrics e))).
Proof.
  intros Hpos Reachable Step.
  assert (Hinv : forall s, Reachable s ->
                   invariant url_Parse stats_Quartile stats_Percentile options source s).
  { intros s. apply invariant_reachable. }
  split.
  { unfold main_start. destruct (Z.leb_spec (concurrency options) 0); [lia|]. eauto. }
  split.
  { intros s Hs Hpc. apply (progress _ _ _ options source s (Hinv s Hs)); [lia | exact Hpc]. }
  split.
  { intros s s' _ Hstep. eapply step_measure. exact Hstep. }
  split.
  { intros s Hs Hpc. pose proof (inv_printed _ _ _ _ _ _ (Hinv s Hs)) as H.
    destruct (pc s); [exact H | exact H | contradiction]. }
  intros s Hs Hpc. split.
  { intros s'. apply (exit_is_final _ _ _ options source); [apply Hinv |]; assumption. }
  pose proof (inv_printed _ _ _ _ _ _ (Hinv s Hs)) as Hp. rewrite Hpc in Hp.
  destruct Hp as [before [Hp Hb]].
  exists before, (flockMetrics_String stats_Quartile stats_Percentile (rollup s)).
  split; [exact Hp|]. split; [exact Hb|]. split; [reflexivity|].
  apply flockMetrics_String_cases.
Qed.

Lemma found_run_reachable (s : state) :
  found_run = Some s ->
  reachable url_Parse_plain stats.Quartile stats.Percentile one_client two_locators s.
Proof.
  unfold found_run.
  destruct (main_start one_client two_locators) as [s0|] eqn:E; [|discriminate].
  intros H. eapply run_reachable; [apply reachable_start; exact E | exact H].
Qed.

Example found_run_summary :
  option_map (fun s => last (printed s)) found_run
  = Some (Some (Sprintf "done: %s\n" [opText (Join [
      Sprintf "count[%d]" [opInt 2];
      Sprintf "max[%d]" [opInt 300];
      Sprintf "min[%d]" [opInt 0];
      Sprintf "avg[%f]" [opFloat (float64_of_int 200)];
      Sprintf "quartiles[%v]" [opQuartiles
        {| Q1 := float64_of_int 100; Q2 := float64_of_int 200; Q3 := float64_of_int 300 |}];
      Sprintf "95[%f]" [opFloat (float64_of_int 200)];
      Sprintf "99[%f]" [opFloat (float64_of_int 200)];
      Sprintf "failed[%d]" [opInt 0];
      Sprintf "ambiguous[%d]" [opInt 0]] " ")])).
Proof. vm_compute. reflexivity. Qed.

Lemma run_ends_with_one_summary_witness :
  0 < concurrency one_client
  /\ forall s, found_run = Some s ->
       exists before summary,
         printed s = before ++ [Sprintf "done: %s\n" [opText summary]]
         /\ List.filter is_done before = []
         /\ summary = flockMetrics_String stats.Quartile stats.Percentile (rollup s).
Proof.
  assert (Hpos : 0 < concurrency one_client) by reflexivity.
  split; [exact Hpos|].
  intros s Hs.
  destruct (run_ends_with_one_summary url_Parse_plain stats.Quartile stats.Percentile
              one_client two_locators Hpos) as [_ [_ [_ [_ Hend]]]].
  destruct (Hend s (found_run_reachable s Hs)) as [_ [before [summary [H1 [H2 [H3 _]]]]]].
  - vm_compute in Hs. inversion Hs; subst. reflexivity.
  - exists before, summary. repeat split; assumption.
Defined.

(** ** The number of results (claim C4) *)

(** C4: at the end of a run all the fetchers that were started have sent
    their one result and are done, the aggregator has folded these results
    and no other, and [count] is their number. The fetchers started are as
    many as the distinct locators that [iter] sent, those are the lines
    that passed the envelope test, and that [url.Parse] accepted. The
    source is a file: its size fits an [int]. *)
Theorem count_is_number_of_fetchers
    (url_Parse : gostring -> URL + error)
    (stats_Quartile : list float64 -> Quartiles * option error)
    (stats_Percentile : list float64 -> float64 -> float64 * option error)
    (options : cliOptions) (source : gostring) (s : state) :
  in_int (Z.of_nat (length source)) ->
  reachable url_Parse stats_Quartile stats_Percentile options source s ->
  pc s = mainExit ->
  let locators := sends (iter source (maxLines options)) in
  exists folded : list ravenResult,
    rollup s = set_average (drain folded)
    /\ count (rollup s) = Z.of_nat (length folded)
    /\ length folded = length (fetchers s)
    /\ tally pending (fetchers s) = O
    /\ length (fetchers s) = length (main_loop url_Parse locators ∅ 0)
    /\ length (main_loop url_Parse locators ∅ 0)
       = length (remove_dups (List.filter (parses url_Parse) locators)).
Proof.
  intros Hsize Hs Hpc locators.
  pose proof (invariant_reachable _ _ _ _ _ _ Hs) as Hinv.
  destruct (inv_folded _ _ _ _ _ _ Hinv) as [folded [Hr [Hl _]]].
  destruct (inv_exit _ _ _ _ _ _ Hinv Hpc) as [Hwg Hin].
  pose proof (inv_wg _ _ _ _ _ _ Hinv) as Hw. rewrite Hwg in Hw.
  pose proof (inv_dispatch _ _ _ _ _ _ Hinv) as Hd.
  rewrite Hpc in Hr, Hd. destruct Hd as [_ [_ Hd]].
  rewrite Hin in Hl.
  destruct (tally_all_done (fetchers s) (eq_sym Hw)) as [Hsent _].
  assert (Hlen : length folded = length (fetchers s)) by lia.
  exists folded. repeat split.
  - exact Hr.
  - rewrite Hr. simpl. rewrite count_drain. apply int_in_range.
    pose proof (main_loop_length_le url_Parse locators ∅ 0) as H1.
    pose proof (iter_sends_length source (maxLines options)) as H2.
    fold locators in H2.
    unfold in_int, locators, dispatched in *. rewrite minInt_eq, maxInt_eq in *. lia.
  - exact Hlen.
  - symmetry. exact Hw.
  - symmetry. exact Hd.
  - apply main_loop_length.
Qed.

Lemma count_is_number_of_fetchers_witness :
  exists s, found_run = Some s /\ pc s = mainExit /\ count (rollup s) = 2.
Proof.
  destruct found_run as [s|] eqn:Hs; [|vm_compute in Hs; discriminate].
  exists s. split; [reflexivity|].
  assert (Hpc : pc s = mainExit) by (vm_compute in Hs; inversion Hs; subst; reflexivity).
  split; [exact Hpc|].
  destruct (count_is_number_of_fetchers url_Parse_plain stats.Quartile stats.Percentile
              one_client two_locators s) as [folded [_ [Hcount [Hlen [_ [Hf _]]]]]].
  - vm_compute. split; discriminate.
  - exact (found_run_reachable s Hs).
  - exact Hpc.
  - rewrite Hcount, Hlen, Hf. reflexivity.
Defined.

(** ** The clients (claim C8) *)

(** C8: in every state of a run the clients that fetchers hold and the
    clients in the queue are together as many as the configured
    concurrency, so that at most that many are held. A fetcher that holds a
    client gives it back whatever [client.Get] returned: after it has sent
    its result, be it for a transport error, a bad status, a missing or
    unreadable length or a success, its next step puts the client back in
    the queue, and the queue always has room for it. At the end of the run
    no client is held. *)
Theorem clients_bounded_and_given_back
    (url_Parse : gostring -> URL + error)
    (stats_Quartile : list float64 -> Quartiles * option error)
    (stats_Percentile : list float64 -> float64 -> float64 * option error)
    (options : cliOptions) (source : gostring) (s : state) :
  reachable url_Parse stats_Quartile stats_Percentile options source s ->
  let capacity := Z.to_nat (concurrency options) in
  let Step := step url_Parse stats_Quartile stats_Percentile capacity in
  (held s <= capacity)%nat
  /\ (held s + length (queue s) = capacity)%nat
  /\ (forall i resource client got,
        fetchers s !! i = Some (fetcherGet resource client) ->
        inbox s = None ->
        exists s1 s2,
          Step s s1 /\ inbox s1 = Some (fetch resource got)
          /\ fetchers s1 !! i = Some (fetcherSent client)
          /\ Step s1 s2
          /\ fetchers s2 !! i = Some fetcherReleased
          /\ queue s2 = queue s ++ [client])
  /\ (forall i client,
        fetchers s !! i = Some (fetcherSent client) ->
        (length (queue s) < capacity)%nat
        /\ exists s2,
             Step s s2 /\ fetchers s2 !! i = Some fetcherReleased
             /\ queue s2 = queue s ++ [client])
  /\ (pc s = mainExit -> held s = O /\ length (queue s) = capacity).
Proof.
  intros Hs capacity Step.
  pose proof (invariant_reachable _ _ _ _ _ _ Hs) as Hinv.
  pose proof (inv_clients _ _ _ _ _ _ Hinv) as Hc. fold capacity in Hc.
  assert (Hroom : forall i client,
             fetchers s !! i = Some (fetcherSent client) ->
             (length (queue s) < capacity)%nat).
  { intros i client Hi. unfold held in Hc.
    pose proof (tally_lookup holds_client _ _ _ Hi eq_refl). lia. }
  split; [lia|]. split; [lia|]. split; [|split].
  - intros i resource client got Hi Hin.
    assert (Hlt : (i < length (fetchers s))%nat) by (eapply lookup_lt_Some; exact Hi).
    exists (after_fetch s i (fetcherSent client) (queue s) (wg s) (Some (fetch resource got))).
    exists (after_fetch
              (after_fetch s i (fetcherSent client) (queue s) (wg s)
                 (Some (fetch resource got)))
              i fetcherReleased (queue s ++ [client]) (wg s) (Some (fetch resource got))).
    assert (Hsent : fetchers
                      (after_fetch s i (fetcherSent client) (queue s) (wg s)
                         (Some (fetch resource got))) !! i
                    = Some (fetcherSent client)).
    { simpl. apply list_lookup_insert_eq. exact Hlt. }
    repeat split.
    + exact (step_fetch_send _ _ _ _ s i resource client got Hi Hin).
    + exact Hsent.
    + refine (step_fetch_release _ _ _ _ _ i client Hsent _). simpl.
      unfold held in Hc. pose proof (tally_lookup holds_client _ _ _ Hi eq_refl). lia.
    + simpl. apply list_lookup_insert_eq. rewrite length_insert. exact Hlt.
  - intros i client Hi. split; [exact (Hroom i client Hi)|].
    exists (after_fetch s i fetcherReleased (queue s ++ [client]) (wg s) (inbox s)).
    repeat split.
    + exact (step_fetch_release _ _ _ _ s i client Hi (Hroom i client Hi)).
    + simpl. apply list_lookup_insert_eq. eapply lookup_lt_Some. exact Hi.
  - intros Hpc.
    destruct (inv_exit _ _ _ _ _ _ Hinv Hpc) as [Hwg _].
    pose proof (inv_wg _ _ _ _ _ _ Hinv) as Hw. rewrite Hwg in Hw.
    destruct (tally_all_done (fetchers s) (eq_sym Hw)) as [_ Hheld].
    unfold held in *. lia.
Qed.

Lemma clients_bounded_and_given_back_witness :
  exists s,
    waiting_run = Some s
    /\ (held s <= 1)%nat /\ held s = 1%nat /\ queue s = []
    /\ fetchers s = [fetcherGet {| URL_String := str "http://a" |} 0;
                     fetcherStart {| URL_String := str "http://b" |}].
Proof.
  destruct waiting_run as [s|] eqn:Hs; [|vm_compute in Hs; discriminate].
  exists s. split; [reflexivity|].
  assert (Hr : reachable url_Parse_plain stats.Quartile stats.Percentile
                 one_client two_locators s).
  { unfold waiting_run in Hs.
    destruct (main_start one_client two_locators) as [s0|] eqn:E; [|discriminate].
    eapply run_reachable; [apply reachable_start; exact E | exact Hs]. }
  destruct (clients_bounded_and_given_back _ _ _ _ _ _ Hr) as [Hle _].
  split; [exact Hle|].
  vm_compute in Hs. inversion Hs; subst. repeat split.
Defined.

(** ** A locator that comes twice (claim C3) *)

Lemma duplicate_lines_dispatched_once_witness :
  filter (fun p => p.1 = str "http://a")
    (main_loop url_Parse_plain (sends (iter twice (-1))) ∅ 0)
  = [(str "http://a", {| URL_String := str "http://a" |})].
Proof.
  apply (duplicate_lines_dispatched_once url_Parse_plain twice (-1)).
  - vm_compute. left. reflexivity.
  - reflexivity.
Defined.

Example twice_dispatched :
  main_loop url_Parse_plain (sends (iter twice (-1))) ∅ 0
  = [(str "http://a", {| URL_String := str "http://a" |});
     (str "http://b", {| URL_String := str "http://b" |})].
Proof. vm_compute. reflexivity. Qed.

(** * Further properties *)

(** ** The aggregator *)

Lemma has_error_snoc (results : list ravenResult) (raven : ravenResult) :
  List.filter has_error (results ++ [raven])
  = List.filter has_error results ++ (if has_error raven then [raven] else []).
Proof. rewrite List.filter_app. simpl. destruct (has_error raven); reflexivity. Qed.

Lemma failed_drain (results : list ravenResult) :
  failed (drain results) = int (Z.of_nat (length (List.filter has_error results))).
Proof.
  induction results as [|raven results IH] using rev_ind; [reflexivity|].
  rewrite drain_snoc, has_error_snoc. unfold add, has_error.
  destruct (exception raven); simpl.
  - rewrite IH, length_app, Nat2Z.inj_add. apply int_add_int.
  - rewrite app_nil_r. exact IH.
Qed.

Lemma ambiguous_drain (results : list ravenResult) :
  ambiguous_errors (drain results) = map exception (List.filter ambiguous results).
Proof.
  induction results as [|raven results IH] using rev_ind; [reflexivity|].
  rewrite drain_snoc, List.filter_app, map_app. simpl.
  unfold add. destruct (exception raven) eqn:E, (ambiguous raven); simpl;
    rewrite IH, ?app_nil_r, ?E; reflexivity.
Qed.

Lemma successful_or_error (results : list ravenResult) :
  (length (List.filter has_error results) + length (successful_sizes results)
   = length results)%nat.
Proof.
  induction results as [|raven results IH] using rev_ind; [reflexivity|].
  rewrite has_error_snoc, successful_sizes_snoc, !length_app. unfold has_error in *.
  destruct (exception raven); simpl; lia.
Qed.

(** X1: [failed] is the number of the results folded that carry an error,
    as an [int], and the ambiguous errors are the errors of the results
    flagged ambiguous, in the order in which these arrived, be the error
    [nil]. *)
Theorem failed_counts_errors (results : list ravenResult) :
  failed (drain results) = int (Z.of_nat (length (List.filter has_error results)))
  /\ ambiguous_errors (drain results) = map exception (List.filter ambiguous results).
Proof. split; [apply failed_drain | apply ambiguous_drain]. Qed.

(** X2: every result folded is counted once, as a failure or with its
    size: [count] is [failed] plus the number of sizes collected, and the
    sizes collected are the sizes of the results without an error, in the
    order in which these arrived. *)
Theorem count_is_failed_plus_sizes (results : list ravenResult) :
  count (drain results)
  = int (failed (drain results) + Z.of_nat (length (sizes (drain results))))
  /\ sizes (drain results) = map float64_of_int (successful_sizes results).
Proof.
  split; [|apply sizes_drain].
  rewrite count_drain, failed_drain, sizes_drain, length_map, int_int_add.
  rewrite <- Nat2Z.inj_add, successful_or_error. reflexivity.
Qed.

Lemma filter_Permutation_bool {A : Type} (p : A -> bool) (l l' : list A) :
  Permutation l l' -> Permutation (List.filter p l) (List.filter p l').
Proof.
  induction 1 as [|x l l' _ IH|x y l|l l' l'' _ IH1 _ IH2]; simpl.
  - constructor.
  - destruct (p x); [constructor|]; exact IH.
  - destruct (p x), (p y); try reflexivity. constructor.
  - etransitivity; eassumption.
Qed.

Lemma successful_sizes_Permutation (results results' : list ravenResult) :
  Permutation results results' ->
  Permutation (successful_sizes results) (successful_sizes results').
Proof.
  intros H. unfold successful_sizes. apply Permutation_map.
  induction H as [|x l l' _ IH|x y l|l l' l'' _ IH1 _ IH2].
  - constructor.
  - rewrite !filter_cons. destruct (decide (exception x = None)); [constructor|]; exact IH.
  - rewrite !filter_cons.
    destruct (decide (exception x = None)), (decide (exception y = None));
      try reflexivity. constructor.
  - etransitivity; eassumption.
Qed.

Lemma total_Permutation (l l' : list Z) : Permutation l l' -> total l = total l'.
Proof.
  unfold total. induction 1 as [| | |l l' l'' _ IH1 _ IH2]; simpl; try lia.
Qed.

Lemma fold_min_Permutation (l l' : list Z) :
  Permutation l l' -> fold_right Z.min 0 l = fold_right Z.min 0 l'.
Proof. induction 1 as [| | |l l' l'' _ IH1 _ IH2]; simpl; lia. Qed.

Lemma fold_max_Permutation (l l' : list Z) :
  Permutation l l' -> fold_right Z.max 0 l = fold_right Z.max 0 l'.
Proof. induction 1 as [| | |l l' l'' _ IH1 _ IH2]; simpl; lia. Qed.

(** X3: the order in which the results arrive does not change the
    statistics: the same results in another order give the same [count],
    [failed], [sum], [min] and [max], and the same sizes and the same
    ambiguous errors in another order. *)
Theorem drain_in_any_order (results results' : list ravenResult) :
  Permutation results results' ->
  count (drain results) = count (drain results')
  /\ failed (drain results) = failed (drain results')
  /\ sum (drain results) = sum (drain results')
  /\ min (drain results) = min (drain results')
  /\ max (drain results) = max (drain results')
  /\ Permutation (sizes (drain results)) (sizes (drain results'))
  /\ Permutation (ambiguous_errors (drain results)) (ambiguous_errors (drain results')).
Proof.
  intros H.
  pose proof (successful_sizes_Permutation _ _ H) as Hs.
  rewrite !count_drain, !failed_drain, !sum_drain, !min_drain, !max_drain,
    !sizes_drain, !ambiguous_drain.
  rewrite (Permutation_length H).
  rewrite (Permutation_length (filter_Permutation_bool has_error _ _ H)).
  rewrite (total_Permutation _ _ Hs), (fold_min_Permutation _ _ Hs),
    (fold_max_Permutation _ _ Hs).
  repeat split.
  - apply Permutation_map, Hs.
  - apply Permutation_map, filter_Permutation_bool, H.
Qed.

Lemma drain_in_any_order_witness :
  count (drain three_results) = count (drain (rev three_results))
  /\ failed (drain three_results) = failed (drain (rev three_results))
  /\ sum (drain three_results) = sum (drain (rev three_results))
  /\ min (drain three_results) = min (drain (rev three_results))
  /\ max (drain three_results) = max (drain (rev three_results))
  /\ Permutation (sizes (drain three_results)) (sizes (drain (rev three_results)))
  /\ Permutation (ambiguous_errors (drain three_results))
       (ambiguous_errors (drain (rev three_results))).
Proof. apply (drain_in_any_order three_results (rev three_results)), Permutation_rev. Defined.

Lemma fold_min_le (l : list Z) (x : Z) : In x l -> fold_right Z.min 0 l <= x.
Proof.
  induction l as [|y l IH]; simpl; [intros []|].
  intros [->|H]; [lia | specialize (IH H); lia].
Qed.

Lemma fold_max_ge (l : list Z) (x : Z) : In x l -> x <= fold_right Z.max 0 l.
Proof.
  induction l as [|y l IH]; simpl; [intros []|].
  intros [->|H]; [lia | specialize (IH H); lia].
Qed.

Lemma fold_min_max_zero (l : list Z) :
  fold_right Z.min 0 l <= 0 <= fold_right Z.max 0 l.
Proof. induction l as [|y l IH]; simpl; lia. Qed.

(** X4: the size of every result folded without an error lies between
    [min] and [max], and so does zero. *)
Theorem sizes_between_min_and_max (results : list ravenResult) (raven : ravenResult) :
  In raven results ->
  exception raven = None ->
  min (drain results) <= size raven <= max (drain results)
  /\ min (drain results) <= 0 <= max (drain results).
Proof.
  intros Hin He. rewrite min_drain, max_drain.
  assert (H : In (size raven) (successful_sizes results)).
  { unfold successful_sizes. apply in_map. apply list_elem_of_In.
    apply list_elem_of_filter. split; [exact He | apply list_elem_of_In, Hin]. }
  split; [split; [apply fold_min_le | apply fold_max_ge]; exact H|].
  apply fold_min_max_zero.
Qed.

Lemma sizes_between_min_and_max_witness :
  min (drain three_results) <= 1234 <= max (drain three_results)
  /\ min (drain three_results) <= 0 <= max (drain three_results).
Proof.
  apply (sizes_between_min_and_max three_results
           (fetch {| URL_String := str "http://a" |} (found "1234"))).
  - left. reflexivity.
  - reflexivity.
Defined.

(** ** The fetcher *)

Lemma fetch_without_error (resource : URL) (got : Response + error) :
  exception (fetch resource got) = None ->
  exists response,
    got = inl response /\ StatusCode response <= 399
    /\ Atoi (Header_Get_ContentLength response) = (size (fetch resource got), None)
    /\ status (fetch resource got) = StatusCode response
    /\ ambiguous (fetch resource got) = false.
Proof.
  destruct got as [response|e]; simpl; [|discriminate].
  destruct (StatusCode response >? 399) eqn:Hs; [discriminate|].
  destruct (Z.of_nat (length (Header_Get_ContentLength response)) <=? 0);
    [discriminate|].
  destruct (Atoi (Header_Get_ContentLength response)) as [n [e|]] eqn:Ha;
    [discriminate|].
  intros _. exists response. simpl. rewrite Z.gtb_ltb in Hs. apply Z.ltb_ge in Hs.
  repeat split; try reflexivity; assumption.
Qed.

Lemma fetch_with_error (resource : URL) (got : Response + error) :
  exception (fetch resource got) <> None ->
  size (fetch resource got) = 0 /\ status (fetch resource got) = 0.
Proof.
  destruct got as [response|e]; simpl; [|split; reflexivity].
  destruct (StatusCode response >? 399); [split; reflexivity|].
  destruct (Z.of_nat (length (Header_Get_ContentLength response)) <=? 0);
    [split; reflexivity|].
  destruct (Atoi (Header_Get_ContentLength response)) as [n [e|]];
    [split; reflexivity|].
  simpl. congruence.
Qed.

(** X5: every result of [fetch] is marked completed and carries the
    locator of its resource. A result with an error has size and status
    zero. A result without an error is not ambiguous and comes from a
    response with a status code of at most 399, which is the status of the
    result, and a declared length that is an integer in decimal notation
    in the range of [int], which is the size of the result. *)
Theorem fetch_result_shape (resource : URL) (got : Response + error) :
  completed (fetch resource got) = true
  /\ url (fetch resource got) = URL_String resource
  /\ (exception (fetch resource got) <> None ->
      size (fetch resource got) = 0 /\ status (fetch resource got) = 0)
  /\ (exception (fetch resource got) = None ->
      ambiguous (fetch resource got) = false
      /\ exists response,
           got = inl response /\ StatusCode response <= 399
           /\ status (fetch resource got) = StatusCode response
           /\ signed_decimal (Header_Get_ContentLength response)
              = Some (size (fetch resource got))
           /\ in_int (size (fetch resource got))).
Proof.
  split; [|split; [|split]].
  - destruct got as [response|e]; simpl; [|reflexivity].
    destruct (StatusCode response >? 399); [reflexivity|].
    destruct (Z.of_nat (length (Header_Get_ContentLength response)) <=? 0);
      [reflexivity|].
    destruct (Atoi (Header_Get_ContentLength response)) as [n [e|]]; reflexivity.
  - destruct got as [response|e]; simpl; [|reflexivity].
    destruct (StatusCode response >? 399); [reflexivity|].
    destruct (Z.of_nat (length (Header_Get_ContentLength response)) <=? 0);
      [reflexivity|].
    destruct (Atoi (Header_Get_ContentLength response)) as [n [e|]]; reflexivity.
  - apply fetch_with_error.
  - intros H. destruct (fetch_without_error _ _ H) as (response & -> & Hs & Ha & Hst & Hamb).
    split; [exact Hamb|]. exists response.
    apply Atoi_signed_decimal in Ha. destruct Ha as [Hd Hr].
    repeat split; try assumption; apply Hr.
Qed.

(** X6: a result of [fetch] is ambiguous exactly when the server answered
    with a status code of at most 399 and the declared length is not an
    integer in decimal notation in the range of [int]: an error of the
    transport and a status code above 399 never give an ambiguous result,
    and every ambiguous result carries an error. *)
Theorem fetch_ambiguous_iff (resource : URL) (got : Response + error) :
  (ambiguous (fetch resource got) = true
   <-> exists response,
         got = inl response /\ StatusCode response <= 399
         /\ forall n, signed_decimal (Header_Get_ContentLength response) = Some n ->
                      ~ in_int n)
  /\ (ambiguous (fetch resource got) = true -> exception (fetch resource got) <> None).
Proof.
  split.
  - destruct got as [response|e]; simpl.
    + destruct (StatusCode response >? 399) eqn:Hs; simpl;
        rewrite Z.gtb_ltb in Hs; [apply Z.ltb_lt in Hs | apply Z.ltb_ge in Hs].
      * split; [discriminate|]. intros (r & [= <-] & H & _). lia.
      * destruct (Z.of_nat (length (Header_Get_ContentLength response)) <=? 0) eqn:Hl.
        { split; [|reflexivity]. intros _. exists response.
          split; [reflexivity|]. split; [lia|]. intros n.
          destruct (Header_Get_ContentLength response); [discriminate|].
          apply Z.leb_le in Hl. simpl length in Hl. lia. }
        destruct (Atoi (Header_Get_ContentLength response)) as [n [e|]] eqn:Ha; simpl.
        { split; [|reflexivity]. intros _. exists response.
          split; [reflexivity|]. split; [lia|]. intros n' Hd Hr.
          assert (H : Atoi (Header_Get_ContentLength response) = (n', None))
            by (apply Atoi_signed_decimal; split; assumption).
          congruence. }
        split; [discriminate|]. intros (r & [= <-] & _ & H).
        apply Atoi_signed_decimal in Ha. destruct Ha as [Hd Hr].
        exfalso. exact (H n Hd Hr).
    + split; [discriminate|]. intros (r & [=] & _).
  - intros Ha He. destruct (fetch_without_error _ _ He) as (_ & _ & _ & _ & _ & H).
    congruence.
Qed.

Lemma ParseUint_loop_syntax (s : gostring) (n : Z) :
  ParseUint_loop s n = inr syntax_failure -> decimal s n = None.
Proof.
  revert n. induction s as [|c s IH]; intros n; simpl; [discriminate|].
  destruct (digit c) as [d|]; [|reflexivity].
  destruct (n >=? maxUint64 / 10 + 1); [discriminate|].
  destruct (n * 10 + d >? maxUint64); [discriminate|]. apply IH.
Qed.

Lemma Atoi_digits_out_of_range (s0 : gostring) (neg : bool) (digits : gostring) (un : Z) :
  unsigned_decimal digits = Some un ->
  ~ in_int (if neg then - un else un) ->
  snd (Atoi_digits s0 neg digits) = Some (rangeError "Atoi" s0).
Proof.
  intros Hd Hr. unfold unsigned_decimal in Hd. unfold Atoi_digits.
  destruct digits as [|c digits]; [discriminate|].
  assert (Hpos : 0 <= un) by (apply (decimal_grows (c :: digits) 0 un); [lia | exact Hd]).
  destruct (ParseUint_loop (c :: digits) 0) as [v|[|]] eqn:Hp.
  - apply ParseUint_loop_decimal in Hp; [|rewrite maxUint64_eq; lia].
    destruct Hp as [Hv _]. assert (v = un) by congruence. subst v.
    unfold in_int in Hr. rewrite minInt_eq, maxInt_eq in Hr.
    change (2 ^ (intSize - 1)) with 9223372036854775808.
    destruct neg; simpl.
    + destruct (un >? 9223372036854775808) eqn:E; [reflexivity | exfalso; lia].
    + destruct (un >=? 9223372036854775808) eqn:E; [reflexivity | exfalso; lia].
  - apply ParseUint_loop_syntax in Hp. congruence.
  - reflexivity.
Qed.

Lemma Atoi_out_of_range (s : gostring) (n : Z) :
  signed_decimal s = Some n -> ~ in_int n ->
  snd (Atoi s) = Some (rangeError "Atoi" s).
Proof.
  intros Hd Hr. destruct s as [|c s]; [discriminate|].
  unfold Atoi. unfold signed_decimal in Hd.
  destruct (Ascii.eqb c "-") eqn:Em; simpl.
  - destruct (unsigned_decimal s) as [un|] eqn:Hu; [|discriminate].
    injection Hd as <-. apply (Atoi_digits_out_of_range _ true s un); assumption.
  - destruct (Ascii.eqb c "+") eqn:Ep.
    + apply (Atoi_digits_out_of_range _ false s n); assumption.
    + apply (Atoi_digits_out_of_range _ false (c :: s) n); assumption.
Qed.

(** X7: when the server answers with a status code of at most 399 and
    declares a length that is an integer in decimal notation outside the
    range of [int], the result is ambiguous and carries the range error of
    [strconv.Atoi] for the declared length, with size and status zero. *)
Theorem fetch_length_out_of_range (resource : URL) (response : Response) (n : Z) :
  StatusCode response <= 399 ->
  signed_decimal (Header_Get_ContentLength response) = Some n ->
  ~ in_int n ->
  fetch resource (inl response)
  = {| url := URL_String resource; completed := true; status := 0;
       exception := Some (rangeError "Atoi" (Header_Get_ContentLength response));
       size := 0; ambiguous := true |}.
Proof.
  intros Hs Hd Hr. pose proof (Atoi_out_of_range _ _ Hd Hr) as Ha.
  unfold fetch. destruct (StatusCode response >? 399) eqn:E;
    [rewrite Z.gtb_ltb in E; apply Z.ltb_lt in E; lia|].
  destruct (Header_Get_ContentLength response) as [|c value] eqn:Hv; [discriminate|].
  change (Z.of_nat (length (c :: value)) <=? 0) with false. cbv iota.
  destruct (Atoi (c :: value)) as [m [e|]]; simpl in Ha; [|discriminate].
  injection Ha as ->. reflexivity.
Qed.

Lemma fetch_length_out_of_range_witness :
  fetch {| URL_String := str "http://a" |}
    (inl {| StatusCode := 200;
            Header_Get_ContentLength := str "9223372036854775808" |})
  = {| url := str "http://a"; completed := true; status := 0;
       exception := Some (rangeError "Atoi" (str "9223372036854775808"));
       size := 0; ambiguous := true |}.
Proof.
  apply (fetch_length_out_of_range {| URL_String := str "http://a" |}
           {| StatusCode := 200;
              Header_Get_ContentLength := str "9223372036854775808" |}
           9223372036854775808).
  - simpl. lia.
  - reflexivity.
  - unfold in_int. rewrite maxInt_eq. lia.
Defined.

Lemma filter_length_le {A : Type} (p q : A -> bool) (l : list A) :
  List.Forall (fun x => p x = true -> q x = true) l ->
  (length (List.filter p l) <= length (List.filter q l))%nat.
Proof.
  induction 1 as [|x l Hx _ IH]; simpl; [lia|].
  destruct (p x) eqn:Ep; [rewrite (Hx eq_refl); simpl; lia|].
  destruct (q x); simpl; lia.
Qed.

(** X8: when every result folded is a result of [fetch], every ambiguous
    error collected is an error and not [nil], and the ambiguous errors
    are at most as many as the failures counted. *)
Theorem ambiguous_are_failures (results : list ravenResult) :
  List.Forall fetched results ->
  List.Forall (fun e => e <> None) (ambiguous_errors (drain results))
  /\ (length (ambiguous_errors (drain results))
      <= length (List.filter has_error results))%nat.
Proof.
  intros H.
  assert (Ha : List.Forall (fun raven => ambiguous raven = true -> has_error raven = true)
                 results).
  { eapply List.Forall_impl; [|exact H]. intros raven (resource & got & ->) Hamb.
    unfold has_error.
    destruct (exception (fetch resource got)) eqn:E; [reflexivity|].
    destruct (fetch_without_error _ _ E) as (_ & _ & _ & _ & _ & Hn). congruence. }
  rewrite ambiguous_drain, length_map.
  split; [|apply filter_length_le, Ha].
  apply List.Forall_forall. intros e He. apply in_map_iff in He.
  destruct He as (raven & <- & Hin). apply List.filter_In in Hin. destruct Hin as [Hin Hamb].
  pose proof (proj1 (List.Forall_forall _ _) Ha raven Hin Hamb) as He.
  unfold has_error in He. destruct (exception raven); [discriminate | discriminate].
Qed.

Lemma ambiguous_are_failures_witness :
  List.Forall (fun e => e <> None) (ambiguous_errors (drain three_results))
  /\ (length (ambiguous_errors (drain three_results))
      <= length (List.filter has_error three_results))%nat.
Proof.
  apply (ambiguous_are_failures three_results).
  repeat constructor; eexists; eexists; reflexivity.
Defined.

(** ** The locator producer *)

Lemma int_is_int (z : Z) : in_int (int z).
Proof.
  unfold in_int, int. rewrite minInt_eq, maxInt_eq.
  change (2 ^ (intSize - 1)) with 9223372036854775808.
  change (2 ^ intSize) with 18446744073709551616.
  pose proof (Z.mod_pos_bound (z + 9223372036854775808) 18446744073709551616).
  lia.
Qed.

Lemma iter_lines_skip (max : Z) (ls : list gostring) (start : Z)
  (before after : list iter_event) (t : text) :
  in_int start ->
  iter_lines max ls start = before ++ iterPrintf t :: after ->
  t = Sprintf "skipping line #%d\n"
        [opInt (int (start + Z.of_nat (length (sends before))))].
Proof.
  revert start before. induction ls as [|s ls IH]; intros start before Hstart; simpl.
  - destruct before; discriminate.
  - destruct ((max <? 0) || (start <? max)); [|destruct before; discriminate].
    destruct (envelope s).
    + destruct before as [|e before]; simpl; [discriminate|].
      intros [= <- H]. apply IH in H; [|apply int_is_int].
      rewrite H. simpl sends. simpl length. unfold int_add.
      rewrite int_int_add.
      replace (start + 1 + Z.of_nat (length (sends before)))
        with (start + Z.of_nat (S (length (sends before)))) by lia.
      reflexivity.
    + destruct before as [|e before]; simpl.
      * intros [= <- _]. rewrite Z.add_0_r, int_in_range by exact Hstart. reflexivity.
      * intros [= <- H]. apply IH in H; [|exact Hstart]. exact H.
Qed.

(** X9: the number in a [skipping line] message is the number of lines
    the producer has accepted before the line it skips, not the position
    of that line in the input. *)
Theorem iter_skip_shows_accepted_lines (source : gostring) (max : Z)
  (before after : list iter_event) (t : text) :
  in_int (Z.of_nat (length source)) ->
  iter source max = before ++ iterPrintf t :: after ->
  t = Sprintf "skipping line #%d\n" [opInt (Z.of_nat (length (sends before)))].
Proof.
  intros Hsize H.
  assert (Hle : (length (sends before) <= length source)%nat).
  { etransitivity; [apply sends_length|].
    transitivity (length (iter source max)).
    - rewrite H, length_app. lia.
    - unfold iter. rewrite iter_loop_lines.
      etransitivity; [apply iter_lines_length | apply split_lines_length]. }
  unfold iter in H. rewrite iter_loop_lines in H.
  apply iter_lines_skip in H; [|unfold in_int; rewrite minInt_eq, maxInt_eq; lia].
  rewrite H, Z.add_0_l, int_in_range; [reflexivity|].
  unfold in_int in *. rewrite minInt_eq, maxInt_eq in *. lia.
Qed.

Lemma iter_skip_shows_accepted_lines_witness :
  Sprintf "skipping line #%d\n" [opInt 1]
  = Sprintf "skipping line #%d\n"
      [opInt (Z.of_nat (length (sends [iterSend (str "http://a")])))].
Proof.
  apply (iter_skip_shows_accepted_lines four_lines (-1)
           [iterSend (str "http://a")]
           [iterSend (str "http://b"); iterSend (str "http://c")]).
  - unfold in_int. rewrite minInt_eq, maxInt_eq. simpl. lia.
  - vm_compute. reflexivity.
Defined.

(** X10: without a limit the producer handles every line that ends with a
    line feed, in order, with one action each: it sends when the line
    passes the envelope test and prints when it does not. *)
Theorem iter_unbounded_handles_every_line (source : gostring) (max : Z) :
  max < 0 ->
  map is_send (iter source max) = map envelope (lines source).
Proof.
  intros Hmax. unfold iter. rewrite iter_loop_lines. generalize 0 as start.
  induction (lines source) as [|s ls IH]; intros start; simpl; [reflexivity|].
  destruct (Z.ltb_spec max 0) as [_|Hge]; [|lia]. simpl.
  destruct (envelope s); simpl; rewrite IH; reflexivity.
Qed.

Lemma iter_unbounded_handles_every_line_witness :
  map is_send (iter four_lines (-1)) = map envelope (lines four_lines).
Proof. apply (iter_unbounded_handles_every_line four_lines (-1)). lia. Defined.

Lemma iter_lines_at_limit (max : Z) (ls : list gostring) :
  0 <= max -> iter_lines max ls max = [].
Proof.
  intros Hmax. destruct ls as [|s ls]; simpl; [reflexivity|].
  destruct (Z.ltb_spec max 0) as [Hneg|Hge]; [lia|].
  rewrite Z.ltb_irrefl. reflexivity.
Qed.

Lemma iter_lines_stops (max : Z) (ls : list gostring) (start : Z) :
  max <= maxInt ->
  0 <= start < max ->
  length (sends (iter_lines max ls start)) = Z.to_nat (max - start) ->
  exists before cleansed, iter_lines max ls start = before ++ [iterSend cleansed].
Proof.
  intros Hmax. revert start. induction ls as [|s ls IH]; intros start Hstart; simpl.
  - intros H. lia.
  - destruct (Z.ltb_spec max 0) as [Hneg|Hge]; [lia|].
    destruct (Z.ltb_spec start max) as [_|Hle]; [|lia]. simpl.
    assert (Hint : int_add start 1 = start + 1).
    { apply int_in_range. unfold in_int. rewrite minInt_eq. lia. }
    destruct (envelope s); simpl.
    + rewrite Hint. intros H.
      destruct (Z.eq_dec (start + 1) max) as [->|Hne].
      * rewrite iter_lines_at_limit by lia. exists [], (Trim s cutset). reflexivity.
      * destruct (IH (start + 1)) as (before & cleansed & ->); [lia | lia |].
        exists (iterSend (Trim s cutset) :: before), cleansed. reflexivity.
    + intros H. destruct (IH start Hstart H) as (before & cleansed & ->).
      eexists (_ :: before), cleansed. reflexivity.
Qed.

(** X11: once the producer has sent as many locators as the limit allows,
    it reads no further line: its last action is the last send, and no
    line after it is reported as skipped. *)
Theorem iter_stops_at_limit (source : gostring) (max : Z) :
  0 < max ->
  in_int max ->
  length (sends (iter source max)) = Z.to_nat max ->
  exists before cleansed, iter source max = before ++ [iterSend cleansed].
Proof.
  intros Hpos Hmax H. unfold iter in *. rewrite iter_loop_lines in *.
  apply iter_lines_stops.
  - apply Hmax.
  - lia.
  - rewrite Z.sub_0_r. exact H.
Qed.

Lemma iter_stops_at_limit_witness :
  exists before cleansed, iter four_lines 1 = before ++ [iterSend cleansed].
Proof.
  apply (iter_stops_at_limit four_lines 1).
  - lia.
  - unfold in_int. rewrite minInt_eq, maxInt_eq. lia.
  - vm_compute. reflexivity.
Defined.

Lemma TrimSpace_braces (body : gostring) :
  TrimSpace ("{"%char :: body ++ ["}"%char; newline]) = "{"%char :: body ++ ["}"%char].
Proof.
  unfold TrimSpace.
  assert (Hl : TrimLeftSpace ("{"%char :: body ++ ["}"%char; newline])
               = "{"%char :: body ++ ["}"%char; newline]) by reflexivity.
  rewrite Hl. unfold TrimRightSpace.
  assert (Hrev : rev ("{"%char :: body ++ ["}"%char; newline])
                 = newline :: "}"%char :: rev ("{"%char :: body)).
  { change ("{"%char :: body ++ ["}"%char; newline])
      with (("{"%char :: body) ++ ["}"%char; newline]).
    rewrite rev_app_distr. reflexivity. }
  rewrite Hrev.
  assert (Hlen : length ("{"%char :: body ++ ["}"%char; newline])
                 = S (S (length (body ++ ["}"%char])))).
  { simpl. rewrite !length_app. simpl. lia. }
  rewrite Hlen.
  change (trim_runes (map (@rev ascii) white_space) (S (S (length (body ++ ["}"%char]))))
            (newline :: "}"%char :: rev ("{"%char :: body)))
    with ("}"%char :: rev ("{"%char :: body)).
  change ("}"%char :: rev ("{"%char :: body)) with (rev ["}"%char] ++ rev ("{"%char :: body)).
  rewrite <- rev_app_distr, rev_involutive. reflexivity.
Qed.

(** X12: the envelope test looks at the braces only: every line that
    starts with an opening brace and ends with a closing brace before its
    line feed passes, be there double quotes inside or not. *)
Theorem envelope_checks_braces_only (body : gostring) :
  envelope (str "{" ++ body ++ str "}" ++ [newline]) = true.
Proof.
  unfold envelope.
  change (str "{" ++ body ++ str "}" ++ [newline])
    with ("{"%char :: body ++ ["}"%char; newline]).
  rewrite TrimSpace_braces. unfold HasSuffix.
  change ("{"%char :: body ++ ["}"%char]) with (("{"%char :: body) ++ ["}"%char]) at 2.
  rewrite rev_app_distr. reflexivity.
Qed.

(** ** The dispatch loop and the goroutines *)

Lemma held_clients_insert (fs : list fetcher) (i : nat) (f f' : fetcher) :
  fs !! i = Some f ->
  Permutation (held_clients (<[i := f']> fs) ++ client_of f)
    (held_clients fs ++ client_of f').
Proof.
  unfold held_clients. revert i. induction fs as [|g fs IH]; intros [|i]; simpl;
    try discriminate.
  - intros [= ->]. rewrite <- !app_assoc.
    rewrite (Permutation_app_comm (client_of f')).
    rewrite (Permutation_app_comm (flat_map client_of fs) (client_of f)).
    rewrite <- app_assoc. reflexivity.
  - intros H. rewrite <- !app_assoc. apply Permutation_app_head, IH, H.
Qed.

Lemma held_clients_app (fs gs : list fetcher) :
  held_clients (fs ++ gs) = held_clients fs ++ held_clients gs.
Proof. unfold held_clients. apply flat_map_app. Qed.

Section Pipeline.

Variable url_Parse : gostring -> URL + error.
Variable stats_Quartile : list float64 -> Quartiles * option error.
Variable stats_Percentile : list float64 -> float64 -> float64 * option error.
Variable options : cliOptions.
Variable source : gostring.

Let capacity : nat := Z.to_nat (concurrency options).
Let Reachable := reachable url_Parse stats_Quartile stats_Percentile options source.

(** X13: the lines the dispatch loop starts a fetcher for come in the
    order of the input, and each fetcher gets the URL that [url.Parse]
    returned for its line. *)
Theorem dispatched_in_order_with_parsed_url
    (ls : list gostring) (d : gmap gostring bool) (k : Z) :
  sublist (main_loop url_Parse ls d k).*1 ls
  /\ List.Forall (fun p => url_Parse p.1 = inl p.2) (main_loop url_Parse ls d k).
Proof.
  revert d k. induction ls as [|line ls IH]; intros d k.
  - split; constructor.
  - rewrite main_loop_cons. destruct (d !! line).
    + destruct (IH d (int_add k 1)) as [H1 H2]. split; [constructor; exact H1 | exact H2].
    + destruct (url_Parse line) as [u|e] eqn:E.
      * destruct (IH (<[line := true]> d) (int_add k 1)) as [H1 H2].
        split; [simpl; constructor; exact H1 | constructor; [exact E | exact H2]].
      * destruct (IH d (int_add k 1)) as [H1 H2].
        split; [constructor; exact H1 | exact H2].
Qed.

(** X14: in every state of a run [duplicates] has one entry for each
    fetcher started, every entry is [true], and its key is a line that
    [url.Parse] accepted: a line without a valid URL is never marked as
    seen. *)
Theorem duplicates_are_the_dispatched_lines (s : state) :
  Reachable s ->
  base.size (duplicates s) = length (fetchers s)
  /\ forall line b, duplicates s !! line = Some b ->
       b = true /\ parses url_Parse line = true.
Proof.
  induction 1 as [s Hstart|s s' _ IH Hstep].
  - unfold main_start in Hstart.
    destruct (concurrency options <=? 0); [discriminate|].
    injection Hstart as <-. simpl. split; [apply map_size_empty|].
    intros line b H. rewrite lookup_empty in H. discriminate.
  - destruct IH as [IH1 IH2].
    destruct Hstep as [s t p _|s c p _ _|s line o d' k' t spawn _ _ Hround
                      |s _ _ _|s i r c q _ _|s i r c got _ _|s i c _ _|s i _
                      |s raven _|s _ _ _];
      simpl; rewrite ?length_insert; try (split; assumption).
    unfold main_round in Hround.
    destruct (duplicates s !! line) eqn:Hd.
    { injection Hround as <- <- <- <-. split; assumption. }
    destruct (url_Parse line) as [u|e] eqn:Hu.
    + injection Hround as <- <- <- <-. split.
      * rewrite map_size_insert_None by exact Hd. rewrite length_app. simpl. lia.
      * intros l b H. apply lookup_insert_Some in H.
        destruct H as [[<- <-]|[_ H]]; [|exact (IH2 _ _ H)].
        split; [reflexivity|]. unfold parses. rewrite Hu. reflexivity.
    + injection Hround as <- <- <- <-. split; assumption.
Qed.

(** X15: [leader] counts every locator that [main] has taken from the
    channel of [iter], duplicates and lines without a valid URL included:
    the locators [iter] sends are those [main] has taken, then those in
    the channel, then those [iter] has yet to send, and [leader] is the
    number of the first, as an [int]. *)
Theorem leader_counts_locators_taken (s : state) :
  Reachable s ->
  exists taken : list gostring,
    sends (iter source (maxLines options)) = taken ++ out s ++ sends (producer s)
    /\ leader s = int (Z.of_nat (length taken)).
Proof.
  induction 1 as [s Hstart|s s' _ IH Hstep].
  - unfold main_start in Hstart.
    destruct (concurrency options <=? 0); [discriminate|].
    injection Hstart as <-. exists []. simpl. split; reflexivity.
  - destruct IH as (taken & IH1 & IH2).
    destruct Hstep as [s t p Hp|s c p Hp _|s line o d' k' t spawn _ Hout Hround
                      |s _ _ _|s i r c q _ _|s i r c got _ _|s i c _ _|s i _
                      |s raven _|s _ _ _];
      simpl; try (exists taken; split; assumption).
    + exists taken. rewrite Hp in IH1. split; assumption.
    + exists taken. rewrite Hp in IH1. simpl in IH1.
      rewrite <- app_assoc. split; assumption.
    + exists (taken ++ [line]). rewrite Hout in IH1. split.
      * rewrite <- app_assoc. exact IH1.
      * assert (Hk : k' = int_add (leader s) 1).
        { unfold main_round in Hround. destruct (duplicates s !! line);
            [|destruct (url_Parse line)]; injection Hround as _ <- _ _; reflexivity. }
        rewrite Hk, IH2, int_add_int, length_app, Nat2Z.inj_add. reflexivity.
Qed.

(** X16: in every state of a run the clients in the queue and the clients
    the fetchers hold are the clients [main] created, each once: no client
    is held by two fetchers, and none is both held and in the queue. *)
Theorem clients_are_never_shared (s : state) :
  Reachable s ->
  Permutation (queue s ++ held_clients (fetchers s)) (seq 0 capacity)
  /\ NoDup (queue s ++ held_clients (fetchers s)).
Proof.
  intros H.
  assert (Hp : Permutation (queue s ++ held_clients (fetchers s)) (seq 0 capacity)).
  { induction H as [s Hstart|s s' _ IH Hstep].
    - unfold main_start in Hstart.
      destruct (concurrency options <=? 0); [discriminate|].
      injection Hstart as <-. simpl. rewrite app_nil_r. reflexivity.
    - destruct Hstep as [s t p _|s c p _ _|s line o d' k' t spawn _ _ _
                        |s _ _ _|s i r c q Hi Hq|s i r c got Hi _|s i c Hi _|s i Hi
                        |s raven _|s _ _ _];
        simpl; try exact IH.
      + destruct spawn; [|exact IH].
        rewrite held_clients_app. simpl. rewrite app_nil_r. exact IH.
      + pose proof (held_clients_insert _ _ _ (fetcherGet r c) Hi) as Hh.
        simpl in Hh. rewrite app_nil_r in Hh. rewrite Hh, <- IH, Hq.
        rewrite (Permutation_app_comm (held_clients (fetchers s)) [c]).
        simpl. symmetry. apply Permutation_middle.
      + pose proof (held_clients_insert _ _ _ (fetcherSent c) Hi) as Hh.
        simpl in Hh. apply Permutation_app_inv_r in Hh. rewrite Hh. exact IH.
      + pose proof (held_clients_insert _ _ _ fetcherReleased Hi) as Hh.
        simpl in Hh. rewrite app_nil_r in Hh. rewrite <- IH, <- Hh.
        rewrite <- !app_assoc. apply Permutation_app_head, Permutation_app_comm.
      + pose proof (held_clients_insert _ _ _ fetcherDone Hi) as Hh.
        simpl in Hh. rewrite !app_nil_r in Hh. rewrite Hh. exact IH. }
  split; [exact Hp|].
  rewrite Hp. apply NoDup_ListNoDup, List.seq_NoDup.
Qed.

(** X17: in every state of a run the number the aggregator prints next,
    [received], and [count] agree, and they are the number of fetchers
    that have sent their result, less the result the aggregator has taken
    and not folded yet, as an [int]. *)
Theorem received_is_count (s : state) :
  Reachable s ->
  received s = count (rollup s)
  /\ exists folded : nat,
       received s = int (Z.of_nat folded)
       /\ (folded + match inbox s with Some _ => 1 | None => 0 end
           = tally past_send (fetchers s))%nat.
Proof.
  intros H. apply invariant_reachable in H.
  destruct (inv_folded _ _ _ _ _ _ H) as (folded & Hr & Hn & Hc).
  split.
  - rewrite Hc, Hr. destruct (pc s); simpl; rewrite count_drain; reflexivity.
  - exists (length folded). split; assumption.
Qed.

(** X18: [group.Done()] never finds the counter of the wait group at
    zero: in every state of a run the counter is the number of fetchers
    that have not called it, so that it is positive when a fetcher is about
    to call it, and at zero only when every fetcher started is done. *)
Theorem wait_group_never_negative (s : state) :
  Reachable s ->
  wg s = tally pending (fetchers s)
  /\ (forall i, fetchers s !! i = Some fetcherReleased -> (0 < wg s)%nat)
  /\ (wg s = O -> forall i f, fetchers s !! i = Some f -> f = fetcherDone).
Proof.
  intros H. apply invariant_reachable in H.
  pose proof (inv_wg _ _ _ _ _ _ H) as Hwg.
  split; [exact Hwg|]. split.
  - intros i Hi. rewrite Hwg. eapply tally_lookup; [exact Hi | reflexivity].
  - intros H0 i f Hi. destruct f; try reflexivity;
      (assert (Hpos : (0 < tally pending (fetchers s))%nat)
         by (eapply tally_lookup; [exact Hi | reflexivity]); lia).
Qed.

(** X19: a run that starts no fetcher ends with the rollup untouched but
    for the average, which is zero divided by zero: not a number. *)
Theorem average_without_fetch_is_NaN (s : state) :
  Reachable s ->
  pc s = mainExit ->
  dispatched url_Parse options source = O ->
  rollup s = set_average rollup0 /\ average (rollup s) = NaN.
Proof.
  intros H Hpc Hd. apply invariant_reachable in H.
  destruct (inv_folded _ _ _ _ _ _ H) as (folded & Hr & Hn & _).
  pose proof (inv_dispatch _ _ _ _ _ _ H) as Hdis.
  rewrite Hpc in Hr, Hdis. destruct Hdis as (_ & _ & Hlen).
  pose proof (tally_le_length past_send (fetchers s)) as Hle.
  assert (Hf : folded = []) by (destruct folded; [reflexivity | simpl in Hn; lia]).
  subst folded. rewrite Hr. split; reflexivity.
Qed.

End Pipeline.

(** X20: the option [stdout] has no effect: two runs on the same input
    whose options differ in it alone go through the same states. *)
Theorem stdout_option_is_not_read
    (url_Parse : gostring -> URL + error)
    (stats_Quartile : list float64 -> Quartiles * option error)
    (stats_Percentile : list float64 -> float64 -> float64 * option error)
    (options options' : cliOptions) (source : gostring) (s : state) :
  maxLines options = maxLines options' ->
  concurrency options = concurrency options' ->
  reachable url_Parse stats_Quartile stats_Percentile options source s ->
  reachable url_Parse stats_Quartile stats_Percentile options' source s.
Proof.
  intros Hm Hc. induction 1 as [s Hstart|s s' _ IH Hstep].
  - apply reachable_start. unfold main_start in *. rewrite <- Hm, <- Hc. exact Hstart.
  - eapply reachable_step; [exact IH|]. rewrite <- Hc. exact Hstep.
Qed.

Lemma waiting_run_reachable (s : state) :
  waiting_run = Some s ->
  reachable url_Parse_plain stats.Quartile stats.Percentile one_client two_locators s.
Proof.
  unfold waiting_run. intros Hs.
  destruct (main_start one_client two_locators) as [s0|] eqn:E; [|discriminate].
  eapply run_reachable; [apply reachable_start; exact E | exact Hs].
Qed.

Lemma no_envelope_run_reachable (s : state) :
  no_envelope_run = Some s ->
  reachable url_Parse_plain stats.Quartile stats.Percentile one_client no_envelope s.
Proof.
  unfold no_envelope_run. intros Hs.
  destruct (main_start one_client no_envelope) as [s0|] eqn:E; [|discriminate].
  eapply run_reachable; [apply reachable_start; exact E | exact Hs].
Qed.

Lemma duplicates_are_the_dispatched_lines_witness :
  exists s,
    waiting_run = Some s
    /\ base.size (duplicates s) = length (fetchers s)
    /\ forall line b, duplicates s !! line = Some b ->
         b = true /\ parses url_Parse_plain line = true.
Proof.
  destruct waiting_run as [s|] eqn:Hs; [|vm_compute in Hs; discriminate].
  exists s. split; [reflexivity|].
  apply (duplicates_are_the_dispatched_lines url_Parse_plain stats.Quartile
           stats.Percentile one_client two_locators s).
  exact (waiting_run_reachable s Hs).
Defined.

Lemma leader_counts_locators_taken_witness :
  exists s,
    waiting_run = Some s
    /\ exists taken : list gostring,
         sends (iter two_locators (maxLines one_client))
         = taken ++ out s ++ sends (producer s)
         /\ leader s = int (Z.of_nat (length taken)).
Proof.
  destruct waiting_run as [s|] eqn:Hs; [|vm_compute in Hs; discriminate].
  exists s. split; [reflexivity|].
  apply (leader_counts_locators_taken url_Parse_plain stats.Quartile
           stats.Percentile one_client two_locators s).
  exact (waiting_run_reachable s Hs).
Defined.

Lemma clients_are_never_shared_witness :
  exists s,
    waiting_run = Some s
    /\ Permutation (queue s ++ held_clients (fetchers s))
         (seq 0 (Z.to_nat (concurrency one_client)))
    /\ NoDup (queue s ++ held_clients (fetchers s)).
Proof.
  destruct waiting_run as [s|] eqn:Hs; [|vm_compute in Hs; discriminate].
  exists s. split; [reflexivity|].
  apply (clients_are_never_shared url_Parse_plain stats.Quartile
           stats.Percentile one_client two_locators s).
  exact (waiting_run_reachable s Hs).
Defined.

Lemma received_is_count_witness :
  exists s,
    found_run = Some s
    /\ received s = count (rollup s)
    /\ exists folded : nat,
         received s = int (Z.of_nat folded)
         /\ (folded + match inbox s with Some _ => 1 | None => 0 end
             = tally past_send (fetchers s))%nat.
Proof.
  destruct found_run as [s|] eqn:Hs; [|vm_compute in Hs; discriminate].
  exists s. split; [reflexivity|].
  apply (received_is_count url_Parse_plain stats.Quartile
           stats.Percentile one_client two_locators s).
  exact (found_run_reachable s Hs).
Defined.

Lemma wait_group_never_negative_witness :
  exists s,
    waiting_run = Some s
    /\ wg s = tally pending (fetchers s)
    /\ (forall i, fetchers s !! i = Some fetcherReleased -> (0 < wg s)%nat)
    /\ (wg s = O -> forall i f, fetchers s !! i = Some f -> f = fetcherDone).
Proof.
  destruct waiting_run as [s|] eqn:Hs; [|vm_compute in Hs; discriminate].
  exists s. split; [reflexivity|].
  apply (wait_group_never_negative url_Parse_plain stats.Quartile
           stats.Percentile one_client two_locators s).
  exact (waiting_run_reachable s Hs).
Defined.

Lemma average_without_fetch_is_NaN_witness :
  exists s,
    no_envelope_run = Some s
    /\ rollup s = set_average rollup0 /\ average (rollup s) = NaN.
Proof.
  destruct no_envelope_run as [s|] eqn:Hs; [|vm_compute in Hs; discriminate].
  exists s. split; [reflexivity|].
  apply (average_without_fetch_is_NaN url_Parse_plain stats.Quartile
           stats.Percentile one_client no_envelope s).
  - exact (no_envelope_run_reachable s Hs).
  - vm_compute in Hs. inversion Hs; subst. reflexivity.
  - vm_compute. reflexivity.
Defined.

Lemma stdout_option_is_not_read_witness :
  exists s,
    not_found_run = Some s
    /\ reachable url_Parse_plain stats.Quartile stats.Percentile
         {| stdout := false; maxLines := -1; concurrency := 1 |} one_locator s.
Proof.
  destruct not_found_run as [s|] eqn:Hs; [|vm_compute in Hs; discriminate].
  exists s. split; [reflexivity|].
  apply (stdout_option_is_not_read url_Parse_plain stats.Quartile
           stats.Percentile one_client
           {| stdout := false; maxLines := -1; concurrency := 1 |} one_locator s).
  - reflexivity.
  - reflexivity.
  - exact (not_found_run_reachable s Hs).
Defined.
